(** * Device-lending web client: utility library and admin mobile controller

    A shallow embedding of the browser scripts of the repository:
    the utility helpers ([formatDate], [maskPhone], [debounce], [throttle],
    [storage], [validators], [validateForm]), the admin mobile controller
    ([loadUsers], [show*Modal], [closeEditModal], [confirmEdit]) and the
    helpers that touch the page ([showToast], [request], the double-tap
    guard, [getCurrentLocation], [showReasonTooltip]), followed by the
    properties the specification states about them and by further
    properties of the code.

    Conventions of the embedding
    - a JavaScript string is the list of its UTF-16 code units;
    - a thrown exception is an explicit [Throw] completion;
    - the browser (DOM form controls, network, timers, localStorage) is an
      explicit argument or an explicit state component;
    - numbers are integers. *)

From Stdlib Require Import ZArith NArith Lia List Ascii String DecimalString DecimalPos.
From stdpp Require Import base option list gmap.

Local Open Scope Z_scope.

(** ** JavaScript strings and primitive operations *)

Module JS.

(** A string is its sequence of UTF-16 code units. *)
Abbreviation jstring := (list N).

(** An ASCII literal of the source, as code units. *)
Definition lit (s : string) : jstring :=
  map N_of_ascii (list_ascii_of_string s).

(** What a [throw] carries; the scripts never inspect it. *)
Inductive exn :=
| TypeError
| SyntaxError
| ReferenceError
| NetworkError
| QuotaExceededError
| SecurityError
| UserError (payload : jstring).

(** The completion of an expression or a call: a value or a throw. *)
Inductive completion (A : Type) :=
| Normal (a : A)
| Throw (e : exn).
Arguments Normal {A} a.
Arguments Throw {A} e.

Definition is_normal {A} (c : completion A) : bool :=
  match c with Normal _ => true | Throw _ => false end.

(** [String.prototype.trim]: the code units of WhiteSpace and
    LineTerminator (TAB, LF, VT, FF, CR, SP, NBSP, the Unicode space
    separators, LS, PS, BOM). *)
Definition is_space (c : N) : bool :=
  bool_decide (c ∈ [9; 10; 11; 12; 13; 32; 160; 5760; 8192; 8193; 8194;
                    8195; 8196; 8197; 8198; 8199; 8200; 8201; 8202; 8232;
                    8233; 8239; 8287; 12288; 65279]%N).

Fixpoint trim_start (s : jstring) : jstring :=
  match s with
  | c :: s' => if is_space c then trim_start s' else s
  | [] => []
  end.

Definition trim (s : jstring) : jstring :=
  rev (trim_start (rev (trim_start s))).

(** Decimal digits of a numeral, most significant first. *)
Fixpoint uint_units (u : Decimal.uint) : jstring :=
  match u with
  | Decimal.Nil => []
  | Decimal.D0 u => 48%N :: uint_units u
  | Decimal.D1 u => 49%N :: uint_units u
  | Decimal.D2 u => 50%N :: uint_units u
  | Decimal.D3 u => 51%N :: uint_units u
  | Decimal.D4 u => 52%N :: uint_units u
  | Decimal.D5 u => 53%N :: uint_units u
  | Decimal.D6 u => 54%N :: uint_units u
  | Decimal.D7 u => 55%N :: uint_units u
  | Decimal.D8 u => 56%N :: uint_units u
  | Decimal.D9 u => 57%N :: uint_units u
  end.

(** [String(n)] for an integer [n]. *)
Definition String_of_Z (z : Z) : jstring :=
  match Z.to_int z with
  | Decimal.Pos u => uint_units u
  | Decimal.Neg u => 45%N :: uint_units u
  end.

(** [s.padStart(n, c)] with a one-unit filler [c]. *)
Definition padStart (n : nat) (c : N) (s : jstring) : jstring :=
  replicate (n - length s)%nat c ++ s.

Definition is_digit (c : N) : bool := (48 <=? c)%N && (c <=? 57)%N.

(** [s.startsWith(pat)], also the test [String.prototype.replace] makes at
    each position when its pattern is a string. *)
Fixpoint starts_with (pat s : jstring) : bool :=
  match pat, s with
  | [], _ => true
  | p :: pat', c :: s' => (p =? c)%N && starts_with pat' s'
  | _ :: _, [] => false
  end.

(** [s.replace(pat, rep)] for a string pattern: only the first occurrence
    is replaced.  The replacement is inserted as it is: the replacements
    the scripts pass are decimal numerals, which hold no [$] pattern. *)
Fixpoint replace_first (pat rep s : jstring) : jstring :=
  if starts_with pat s then rep ++ drop (length pat) s
  else match s with
       | [] => []
       | c :: s' => c :: replace_first pat rep s'
       end.

(** [parseInt(s)]: leading white space, a sign, [0x] for radix 16, then the
    longest run of digits; [None] is [NaN]. *)
Definition digit_of (radix : Z) (c : N) : option Z :=
  let d := if is_digit c then Z.of_N c - 48
           else if (97 <=? c)%N && (c <=? 122)%N then Z.of_N c - 87
           else if (65 <=? c)%N && (c <=? 90)%N then Z.of_N c - 55
           else radix in
  if d <? radix then Some d else None.

Fixpoint leading_digits (radix : Z) (acc : option Z) (s : jstring) : option Z :=
  match s with
  | c :: s' =>
      match digit_of radix c with
      | Some d => leading_digits radix (Some (radix * default 0 acc + d)) s'
      | None => acc
      end
  | [] => acc
  end.

Definition parseInt (s : jstring) : option Z :=
  let s := trim_start s in
  let '(negative, s) :=
    match s with
    | 45%N :: t => (true, t)
    | 43%N :: t => (false, t)
    | _ => (false, s)
    end in
  let '(radix, s) :=
    match s with
    | 48%N :: 120%N :: t | 48%N :: 88%N :: t => (16, t)
    | _ => (10, s)
    end in
  (fun z => if negative : bool then - z else z) <$> leading_digits radix None s.

(** *** Statements that may throw and mutate a state *)

Definition M (S A : Type) : Type := S -> completion A * S.

Definition ret {S A} (a : A) : M S A := fun s => (Normal a, s).

Definition bind {S A B} (c : M S A) (k : A -> M S B) : M S B :=
  fun s =>
    match c s with
    | (Normal a, s') => k a s'
    | (Throw e, s') => (Throw e, s')
    end.

Definition throw {S A} (e : exn) : M S A := fun s => (Throw e, s).

(** [try { c } catch (e) { h e }]: what [c] did to the state before it
    threw stays done. *)
Definition try_catch {S A} (c : M S A) (h : exn -> M S A) : M S A :=
  fun s =>
    match c s with
    | (Normal a, s') => (Normal a, s')
    | (Throw e, s') => h e s'
    end.

Definition lift {S A} (c : completion A) : M S A := fun s => (c, s).

Definition gets {S A} (f : S -> A) : M S A := fun s => (Normal (f s), s).

Definition modify {S} (f : S -> S) : M S unit := fun s => (Normal tt, f s).

(** Deciding the closed tests of a goal by computation. *)
Ltac decide_closed :=
  repeat match goal with
  | |- context [bool_decide ?P] =>
      let v := eval vm_compute in (bool_decide P) in
      match v with
      | true => idtac
      | false => idtac
      end;
      change (bool_decide P) with v; cbv beta iota
  end.

#[global] Instance M_ret {S} : MRet (M S) := fun A => ret.
#[global] Instance M_bind {S} : MBind (M S) := fun A B k c => bind c k.

End JS.

Import JS.

(** ** The utility library *)

Module Utils.

(** *** maskPhone

    <<
    function maskPhone(phone) {
        if (!phone || phone.length !== 11) return phone;
        return phone.substring(0, 3) + '****' + phone.substring(7);
    }
    >>
    The argument is a string or [null]/[undefined] ([None]). *)
Definition maskPhone (phone : option jstring) : option jstring :=
  match phone with
  | None => phone
  | Some s =>
      if bool_decide (s = []) || negb (length s =? 11)%nat then phone
      else Some (take 3 s ++ lit "****" ++ drop 7 s)
  end.

(** *** formatDate

    <<
    function formatDate(date, format = 'YYYY-MM-DD') {
        const d = new Date(date);
        const year = d.getFullYear();
        const month = String(d.getMonth() + 1).padStart(2, '0');
        const day = String(d.getDate()).padStart(2, '0');
        const hour = String(d.getHours()).padStart(2, '0');
        const minute = String(d.getMinutes()).padStart(2, '0');
        return format.replace('YYYY', year).replace('MM', month)
            .replace('DD', day).replace('HH', hour).replace('mm', minute);
    }
    >>
    [Date] holds the local-time fields of the valid date [new Date(date)],
    under the names of their getters. *)
Record Date := {
  getFullYear : Z;
  getMonth : Z;
  getDate : Z;
  getHours : Z;
  getMinutes : Z
}.

(** The ranges of the getters on a valid date. *)
Definition valid_date (d : Date) : Prop :=
  -271821 <= getFullYear d <= 275760 /\
  0 <= getMonth d <= 11 /\
  1 <= getDate d <= 31 /\
  0 <= getHours d <= 23 /\
  0 <= getMinutes d <= 59.

Definition two_digits (z : Z) : jstring := padStart 2 48%N (String_of_Z z).

(** [format] is [None] when the caller leaves the argument out. *)
Definition formatDate (d : Date) (format : option jstring) : jstring :=
  let format := default (lit "YYYY-MM-DD") format in
  let year := String_of_Z (getFullYear d) in
  let month := two_digits (getMonth d + 1) in
  let day := two_digits (getDate d) in
  let hour := two_digits (getHours d) in
  let minute := two_digits (getMinutes d) in
  replace_first (lit "mm") minute
    (replace_first (lit "HH") hour
       (replace_first (lit "DD") day
          (replace_first (lit "MM") month
             (replace_first (lit "YYYY") year format)))).

(** *** Vocabulary of the statements about formatDate *)

(** The number of positions of [s] at which [pat] starts. *)
Fixpoint occ (pat s : jstring) : nat :=
  match s with
  | [] => 0
  | _ :: s' => ((if starts_with pat s then 1 else 0) + occ pat s')%nat
  end.

(** No code unit of [p] is in [q]. *)
Definition apart (p q : jstring) : Prop := forall c, c ∈ p -> c ∉ q.

(** The replacements of a table, one after the other, as [formatDate]
    chains its calls of [replace]. *)
Definition subst_seq (T : list (jstring * jstring)) (s : jstring) : jstring :=
  foldl (fun acc e => replace_first e.1 e.2 acc) s T.

(** The patterns are distinct and not empty, the replacements are not
    empty, and a pattern shares no code unit with a replacement or with
    another pattern. *)
Definition table_ok (T : list (jstring * jstring)) : Prop :=
  NoDup T.*1 /\
  forall e, e ∈ T ->
    e.1 <> [] /\ e.2 <> [] /\
    forall e', e' ∈ T -> apart e.1 e'.2 /\ (e.1 <> e'.1 -> apart e.1 e'.1).

(** The five tokens [formatDate] knows. *)
Inductive token := YYYY | MM | DD | HH | mm.

#[export] Instance token_eq_dec : EqDecision token.
Proof. solve_decision. Defined.

(** The tokens, in the order [formatDate] replaces them. *)
Definition tokens : list token := [YYYY; MM; DD; HH; mm].

Definition token_text (t : token) : jstring :=
  match t with
  | YYYY => lit "YYYY"
  | MM => lit "MM"
  | DD => lit "DD"
  | HH => lit "HH"
  | mm => lit "mm"
  end.

(** What a token stands for. *)
Definition token_value (d : Date) (t : token) : jstring :=
  match t with
  | YYYY => String_of_Z (getFullYear d)
  | MM => two_digits (getMonth d + 1)
  | DD => two_digits (getDate d)
  | HH => two_digits (getHours d)
  | mm => two_digits (getMinutes d)
  end.

(** A format, cut into its tokens and the text between them. *)
Inductive piece :=
| Text (s : jstring)
| Tok (t : token).

#[export] Instance piece_eq_dec : EqDecision piece.
Proof. solve_decision. Defined.

Definition piece_pattern (p : piece) : jstring :=
  match p with Text s => s | Tok t => token_text t end.

Definition piece_value (d : Date) (p : piece) : jstring :=
  match p with Text s => s | Tok t => token_value d t end.

(** The format string of a template, and the template with every token
    replaced by its value. *)
Definition pattern_text (tpl : list piece) : jstring :=
  concat (piece_pattern <$> tpl).

Definition rendered (d : Date) (tpl : list piece) : jstring :=
  concat (piece_value d <$> tpl).

(** How many times a template has the token [t]. *)
Definition count_tok (t : token) (tpl : list piece) : nat :=
  length (filter (fun p => p = Tok t) tpl).

(** The template shows every occurrence of a token in its format, and no
    token more than once. *)
Definition faithful (tpl : list piece) : Prop :=
  forall t, occ (token_text t) (pattern_text tpl) = count_tok t tpl /\
            (count_tok t tpl <= 1)%nat.

(** The replacements of [formatDate] for the date [d]. *)
Definition date_table (d : Date) : list (jstring * jstring) :=
  (fun t => (token_text t, token_value d t)) <$> tokens.

(** A code unit of a numeral: a digit or the minus sign. *)
Definition numeral_unit (c : N) : Prop := is_digit c = true \/ c = 45%N.

Definition is_text (p : piece) : Prop :=
  match p with Text _ => True | Tok _ => False end.

(** A number below 100 written with two digits. *)
Definition pad2 (z : Z) : jstring := [Z.to_N (48 + z / 10); Z.to_N (48 + z mod 10)].

Definition default_template : list piece :=
  [Tok YYYY; Text (lit "-"); Tok MM; Text (lit "-"); Tok DD].

Definition long_template : list piece :=
  [Tok YYYY; Text (lit "/"); Tok MM; Text (lit "/"); Tok DD; Text (lit " ");
   Tok HH; Text (lit ":"); Tok mm].

Definition epiphany : Date :=
  {| getFullYear := 2024; getMonth := 0; getDate := 6;
     getHours := 9; getMinutes := 5 |}.

Definition year_999 : Date :=
  {| getFullYear := 999; getMonth := 0; getDate := 6;
     getHours := 9; getMinutes := 5 |}.

(** *** storage

    The wrapper sits on two browser interfaces, [JSON] and [localStorage].
    [JSON] is an interface over the values of the page; the one fact of it
    the wrapper relies on is that the empty text is not JSON. *)
Class JSON (V : Type) := {
  (** [JSON.stringify(v)]: a text, [undefined] ([None]), or a throw
      (a cyclic structure, a BigInt). *)
  stringify : V -> completion (option jstring);
  (** [JSON.parse(text)]: a value or a [SyntaxError]. *)
  parse : jstring -> completion V;
  parse_empty : parse [] = Throw SyntaxError
}.

(** [localStorage]: the stored items, whether the page may touch the store
    at all (a blocked store throws [SecurityError] on every access), and the
    room it has, in code units of keys and values ([setItem] throws
    [QuotaExceededError] beyond it). *)
Record LocalStorage := {
  items : gmap jstring jstring;
  available : bool;
  capacity : N
}.

Definition used (m : gmap jstring jstring) : N :=
  map_fold (fun k v acc => N.of_nat (length k) + N.of_nat (length v) + acc)%N 0%N m.

Definition getItem (key : jstring) : M LocalStorage (option jstring) :=
  fun ls =>
    if available ls then (Normal (items ls !! key), ls)
    else (Throw SecurityError, ls).

Definition setItem (key value : jstring) : M LocalStorage unit :=
  fun ls =>
    if available ls then
      let items' := <[key := value]> (items ls) in
      if (used items' <=? capacity ls)%N
      then (Normal tt, {| items := items'; available := true; capacity := capacity ls |})
      else (Throw QuotaExceededError, ls)
    else (Throw SecurityError, ls).

Definition removeItem (key : jstring) : M LocalStorage unit :=
  fun ls =>
    if available ls
    then (Normal tt, {| items := delete key (items ls); available := true; capacity := capacity ls |})
    else (Throw SecurityError, ls).

(** [console.error(...)]: nothing the page can observe. *)
Definition console_error {S} : M S unit := ret tt.

Section Storage.
Context {V : Type} `{JSON V}.

(** What [setItem] stores for the result of [JSON.stringify]: the text, or
    the string ["undefined"] when there is none. *)
Definition item_text (o : option jstring) : jstring :=
  match o with Some t => t | None => lit "undefined" end.

(** <<
    set(key, value) {
        try { localStorage.setItem(key, JSON.stringify(value)); }
        catch (e) { console.error('Storage set error:', e); }
    }
    >> *)
Definition storage_set (key : jstring) (value : V) : M LocalStorage unit :=
  try_catch
    (t ← lift (stringify value); setItem key (item_text t))
    (fun _ => console_error).

(** <<
    get(key, defaultValue = null) {
        try {
            const item = localStorage.getItem(key);
            return item ? JSON.parse(item) : defaultValue;
        } catch (e) {
            console.error('Storage get error:', e);
            return defaultValue;
        }
    }
    >>
    A caller that leaves [defaultValue] out passes [null]. *)
Definition storage_get (key : jstring) (defaultValue : V) : M LocalStorage V :=
  try_catch
    (item ← getItem key;
     match item with
     | Some (c :: t) => lift (parse (c :: t))
     | Some [] | None => ret defaultValue
     end)
    (fun _ => console_error;; ret defaultValue).

(** <<
    remove(key) {
        try { localStorage.removeItem(key); }
        catch (e) { console.error('Storage remove error:', e); }
    }
    >> *)
Definition storage_remove (key : jstring) : M LocalStorage unit :=
  try_catch (removeItem key) (fun _ => console_error).

(** [JSON.parse(JSON.stringify(v))] is [v]. *)
Definition representable (v : V) : Prop :=
  match stringify v with
  | Normal o => parse (item_text o) = Normal v
  | Throw _ => False
  end.

(** The store takes the text of [v] under [key]. *)
Definition accepts (ls : LocalStorage) (key : jstring) (v : V) : Prop :=
  available ls = true /\
  forall o, stringify v = Normal o ->
            (used (<[key := item_text o]> (items ls)) <= capacity ls)%N.

End Storage.

(** A page that stores flags: the JSON of [null], [true] and [false]. *)
Definition flag_text (v : option bool) : jstring :=
  match v with
  | None => lit "null"
  | Some true => lit "true"
  | Some false => lit "false"
  end.

Definition flag_parse (t : jstring) : completion (option bool) :=
  if bool_decide (t = lit "null") then Normal None
  else if bool_decide (t = lit "true") then Normal (Some true)
  else if bool_decide (t = lit "false") then Normal (Some false)
  else Throw SyntaxError.

#[export] Instance flag_JSON : JSON (option bool) :=
  {| stringify v := Normal (Some (flag_text v));
     parse := flag_parse;
     parse_empty := eq_refl |}.

Definition roomy : LocalStorage :=
  {| items := ∅; available := true; capacity := 100 |}.

(** A store without room, as a browser in private mode may give. *)
Definition full : LocalStorage :=
  {| items := ∅; available := true; capacity := 0 |}.

(** *** validators and validateForm

    The values a form field, a rule argument or a rule result can be. *)
Inductive value :=
| VUndefined
| VNull
| VBool (b : bool)
| VNum (z : Z)
| VStr (s : jstring).

#[global] Instance value_eq_dec : EqDecision value.
Proof. solve_decision. Defined.

Definition truthy (v : value) : bool :=
  match v with
  | VUndefined | VNull => false
  | VBool b => b
  | VNum z => negb (z =? 0)
  | VStr s => negb (bool_decide (s = []))
  end.

Definition ToString (v : value) : jstring :=
  match v with
  | VUndefined => lit "undefined"
  | VNull => lit "null"
  | VBool true => lit "true"
  | VBool false => lit "false"
  | VNum z => String_of_Z z
  | VStr s => s
  end.

(** The number a run of decimal digits denotes. *)
Fixpoint digits_value (acc : Z) (s : jstring) : option Z :=
  match s with
  | [] => Some acc
  | c :: s' => if is_digit c then digits_value (10 * acc + (Z.of_N c - 48)) s'
               else None
  end.

(** [ToNumber]; [None] is [NaN].  Of the numeric strings, the signed decimal
    integers are read; the model has no other numbers. *)
Definition ToNumber (v : value) : option Z :=
  match v with
  | VUndefined => None
  | VNull => Some 0
  | VBool b => Some (if b then 1 else 0)
  | VNum z => Some z
  | VStr s =>
      match trim s with
      | [] => Some 0
      | 45%N :: c :: t => Z.opp <$> digits_value 0 (c :: t)
      | 43%N :: c :: t => digits_value 0 (c :: t)
      | c :: t => if is_digit c then digits_value 0 (c :: t) else None
      end
  end.

(** [a < b] where [a] is a number or [undefined] ([None]). *)
Definition number_lt (a : option Z) (b : value) : bool :=
  match a, ToNumber b with
  | Some x, Some y => x <? y
  | _, _ => false
  end.

(** [value.length]: a number on a string, [undefined] on a number or a
    boolean, a [TypeError] on [undefined] and [null]. *)
Definition length_of (v : value) : completion (option Z) :=
  match v with
  | VUndefined | VNull => Throw TypeError
  | VStr s => Normal (Some (Z.of_nat (length s)))
  | VBool _ | VNum _ => Normal None
  end.

Definition msg_required : jstring := [27492; 39033; 20026; 24517; 22635]%N.
Definition msg_phone : jstring :=
  [35831; 36755; 20837; 27491; 30830; 30340; 25163; 26426; 21495]%N.
Definition msg_at_least : jstring := [26368; 23569; 38656; 35201]%N.
Definition msg_at_most : jstring := [26368; 22810]%N.
Definition msg_chars : jstring := [20010; 23383; 31526]%N.

(** A default parameter value applies when the argument is [undefined]. *)
Definition default_param (d : jstring) (arg : value) : value :=
  match arg with VUndefined => VStr d | _ => arg end.

(** [a || b] on a message. *)
Definition or_else (a : value) (b : jstring) : value :=
  if truthy a then a else VStr b.

Module validators.

(** <<
    required(value, message = '此项为必填') {
        if (!value || value.trim() === '') return message;
        return true;
    }
    >>
    [value.trim] is a function on strings only. *)
Definition required (v message : value) : completion value :=
  let message := default_param msg_required message in
  if negb (truthy v) then Normal message
  else match v with
       | VStr s => if bool_decide (trim s = []) then Normal message
                   else Normal (VBool true)
       | _ => Throw TypeError
       end.

(** [/^1[3-9]\d{9}$/.test(s)] *)
Definition phoneRegex (s : jstring) : bool :=
  match s with
  | c0 :: c1 :: rest =>
      (c0 =? 49)%N && (51 <=? c1)%N && (c1 <=? 57)%N
      && (length rest =? 9)%nat && forallb is_digit rest
  | _ => false
  end.

(** <<
    phone(value, message = '请输入正确的手机号') {
        const phoneRegex = /^1[3-9]\d{9}$/;
        if (!phoneRegex.test(value)) return message;
        return true;
    }
    >> *)
Definition phone (v message : value) : completion value :=
  let message := default_param msg_phone message in
  if negb (phoneRegex (ToString v)) then Normal message
  else Normal (VBool true).

(** <<
    minLength(value, length, message) {
        message = message || `最少需要${length}个字符`;
        if (value.length < length) return message;
        return true;
    }
    >> *)
Definition minLength (v len message : value) : completion value :=
  let message := or_else message (msg_at_least ++ ToString len ++ msg_chars) in
  match length_of v with
  | Throw e => Throw e
  | Normal n => if number_lt n len then Normal message else Normal (VBool true)
  end.

(** <<
    maxLength(value, length, message) {
        message = message || `最多${length}个字符`;
        if (value.length > length) return message;
        return true;
    }
    >> *)
Definition maxLength (v len message : value) : completion value :=
  let message := or_else message (msg_at_most ++ ToString len ++ msg_chars) in
  match length_of v with
  | Throw e => Throw e
  | Normal n =>
      if match n, ToNumber len with
         | Some x, Some y => y <? x
         | _, _ => false
         end
      then Normal message else Normal (VBool true)
  end.

(** [validators[name](value, ...args)]: a missing argument is [undefined];
    a name that is none of the four gives [undefined], and calling it
    throws (the names that every object inherits, such as [toString], are
    left out of the model). *)
Definition call (name : jstring) (v : value) (args : list value)
  : completion value :=
  let arg i := nth i args VUndefined in
  if bool_decide (name = lit "required") then required v (arg 0%nat)
  else if bool_decide (name = lit "phone") then phone v (arg 0%nat)
  else if bool_decide (name = lit "minLength") then minLength v (arg 0%nat) (arg 1%nat)
  else if bool_decide (name = lit "maxLength") then maxLength v (arg 0%nat) (arg 1%nat)
  else Throw TypeError.

End validators.

(** A rule of a field: a function, a string, an array, or something else
    (which [validateForm] passes over, leaving [result] undefined). *)
Inductive rule :=
| RuleFn (f : value -> completion value)
| RuleStr (message : jstring)
| RuleArr (elems : list value)
| RuleOther.

(** The body of the inner loop up to the test of [result]:
    <<
    let result;
    if (typeof rule === 'function') result = rule(value);
    else if (typeof rule === 'string') result = validators.required(value, rule);
    else if (Array.isArray(rule)) {
        const [validatorName, ...args] = rule;
        result = validators[validatorName](value, ...args);
    }
    >> *)
Definition apply_rule (v : value) (r : rule) : completion value :=
  match r with
  | RuleFn f => f v
  | RuleStr message => validators.required v (VStr message)
  | RuleArr elems =>
      validators.call (ToString (hd VUndefined elems)) v (tl elems)
  | RuleOther => Normal VUndefined
  end.

(** The inner loop, [for (const rule of fieldRules)]: the first result that
    is not [true] is the field's error, and the loop breaks. *)
Fixpoint check_field (v : value) (fieldRules : list rule)
  : completion (option value) :=
  match fieldRules with
  | [] => Normal None
  | r :: rest =>
      match apply_rule v r with
      | Throw e => Throw e
      | Normal result =>
          if bool_decide (result = VBool true) then check_field v rest
          else Normal (Some result)
      end
  end.

(** [formData[field]] *)
Definition field_value (formData : gmap jstring value) (field : jstring) : value :=
  default VUndefined (formData !! field).

(** The outer loop, [for (const field in rules)], over the properties of
    [rules] in their enumeration order. *)
Fixpoint check_fields (formData : gmap jstring value)
    (rules : list (jstring * list rule)) (errors : gmap jstring value)
  : completion (gmap jstring value) :=
  match rules with
  | [] => Normal errors
  | (field, fieldRules) :: rest =>
      match check_field (field_value formData field) fieldRules with
      | Throw e => Throw e
      | Normal None => check_fields formData rest errors
      | Normal (Some result) =>
          check_fields formData rest (<[field := result]> errors)
      end
  end.

Record validation := {
  isValid : bool;
  errors : gmap jstring value
}.

(** <<
    function validateForm(formData, rules) {
        const errors = {};
        for (const field in rules) { ... }
        return { isValid: Object.keys(errors).length === 0, errors };
    }
    >> *)
Definition validateForm (formData : gmap jstring value)
    (rules : list (jstring * list rule)) : completion validation :=
  match check_fields formData rules ∅ with
  | Throw e => Throw e
  | Normal errors =>
      Normal {| isValid := (size errors =? 0)%nat; errors := errors |}
  end.

(** *** Vocabulary of the statements about validateForm *)

Definition known_validators : list jstring :=
  [lit "required"; lit "phone"; lit "minLength"; lit "maxLength"].

(** A rule that can be applied: a function rule returns, an array rule
    names one of the validators. *)
Definition rule_applies (v : value) (r : rule) : Prop :=
  match r with
  | RuleFn f => exists x, f v = Normal x
  | RuleArr elems => ToString (hd VUndefined elems) ∈ known_validators
  | RuleStr _ | RuleOther => True
  end.

Definition passes (v : value) (r : rule) : Prop :=
  apply_rule v r = Normal (VBool true).

(** [o] is the result of the first rule of [fieldRules] whose result is not
    [true]; [None] when every rule gives [true]. *)
Definition first_failure (v : value) (fieldRules : list rule) (o : option value) : Prop :=
  match o with
  | Some x =>
      exists pre r post,
        fieldRules = pre ++ r :: post /\
        Forall (passes v) pre /\
        apply_rule v r = Normal x /\ x <> VBool true
  | None => Forall (passes v) fieldRules
  end.

Definition sample_form : gmap jstring value :=
  {[ lit "name" := VStr (lit "a"); lit "tel" := VStr (lit "13812345678") ]}.

Definition sample_rules : list (jstring * list rule) :=
  [(lit "name", [RuleStr (lit "name?");
                 RuleArr [VStr (lit "minLength"); VNum 2];
                 RuleArr [VStr (lit "maxLength"); VNum 0]]);
   (lit "tel", [RuleArr [VStr (lit "phone")]])].

End Utils.

(** ** debounce and throttle

    Both wrappers live in the browser's event loop.  The model has a clock
    in milliseconds and the table of pending timers; the browser decides
    when the wrapper is called and when a pending timer fires, a timer
    never firing before it is due.  The wrapped function [func] is an
    opaque callee: it returns or throws, and does not call the wrapper. *)

Module Timers.

(** The timers of the page: [setTimeout] numbers them as it goes. *)
Record timer_table (C : Type) := {
  pending : gmap nat (Z * C);
  next_id : nat
}.
Arguments pending {C} _.
Arguments next_id {C} _.

Definition no_timers {C} : timer_table C := {| pending := ∅; next_id := 1 |}.

(** [setTimeout(cb, delay)] at time [now]: a negative delay counts as 0. *)
Definition setTimeout {C} (cb : C) (delay now : Z) (tbl : timer_table C)
  : nat * timer_table C :=
  (next_id tbl,
   {| pending := <[next_id tbl := (now + Z.max 0 delay, cb)]> (pending tbl);
      next_id := S (next_id tbl) |}).

(** [clearTimeout(id)]; [None] is [undefined]. *)
Definition clearTimeout {C} (id : option nat) (tbl : timer_table C) : timer_table C :=
  match id with
  | Some i => {| pending := delete i (pending tbl); next_id := next_id tbl |}
  | None => tbl
  end.

(** What the browser does to a wrapper. *)
Inductive event (A : Type) :=
| Call (t : Z) (args : A)      (* the wrapper is called with [args] *)
| Fire (t : Z) (id : nat).     (* the timer [id] fires *)
Arguments Call {A} t args.
Arguments Fire {A} t id.

(** What an observer sees of a run, newest first. *)
Inductive obs (A : Type) :=
| Called (t : Z) (args : A)    (* the wrapper was called *)
| Invoked (t : Z) (args : A).  (* the wrapped function was invoked *)
Arguments Called {A} t args.
Arguments Invoked {A} t args.

Definition obs_time {A} (o : obs A) : Z :=
  match o with Called t _ | Invoked t _ => t end.

Definition is_invoked {A} (o : obs A) : bool :=
  match o with Invoked _ _ => true | Called _ _ => false end.

Section Wrappers.
Context {A : Type}.
Variable func : A -> completion unit.

(** *** debounce
    <<
    function debounce(func, wait) {
        let timeout;
        return function executedFunction(...args) {
            const later = () => { clearTimeout(timeout); func(...args); };
            clearTimeout(timeout);
            timeout = setTimeout(later, wait);
        };
    }
    >>
    The callback of a timer is the closure [later]; it is kept as the
    [args] it captured. *)
Record debounced := {
  timeout : option nat;
  d_timers : timer_table A;
  d_clock : Z;
  d_trace : list (obs A)
}.

Definition debounce : debounced :=
  {| timeout := None; d_timers := no_timers; d_clock := 0; d_trace := [] |}.

Definition executedFunction (wait t : Z) (args : A) (s : debounced) : debounced :=
  let '(id, tbl) := setTimeout args wait t (clearTimeout (timeout s) (d_timers s)) in
  {| timeout := Some id; d_timers := tbl; d_clock := t;
     d_trace := Called t args :: d_trace s |}.

(** The timer [id] leaves the table and [later] runs; whether [func] throws
    is of no consequence to the wrapper. *)
Definition later (t : Z) (id : nat) (args : A) (s : debounced) : debounced :=
  let fired := {| pending := delete id (pending (d_timers s));
                  next_id := next_id (d_timers s) |} in
  {| timeout := timeout s;
     d_timers := clearTimeout (timeout s) fired;
     d_clock := t;
     d_trace := Invoked t args :: d_trace s |}.

Definition debounce_step (wait : Z) (s : debounced) (e : event A)
  : option debounced :=
  match e with
  | Call t args =>
      if d_clock s <=? t then Some (executedFunction wait t args s) else None
  | Fire t id =>
      match pending (d_timers s) !! id with
      | Some (due, args) =>
          if (d_clock s <=? t) && (due <=? t) then Some (later t id args s)
          else None
      | None => None
      end
  end.

(** *** throttle
    <<
    function throttle(func, limit) {
        let inThrottle;
        return function(...args) {
            if (!inThrottle) {
                func.apply(this, args);
                inThrottle = true;
                setTimeout(() => inThrottle = false, limit);
            }
        };
    }
    >>
    The only callback is the one that clears [inThrottle]. *)
Record throttled := {
  inThrottle : bool;
  t_timers : timer_table unit;
  t_clock : Z;
  t_trace : list (obs A)
}.

Definition throttle : throttled :=
  {| inThrottle := false; t_timers := no_timers; t_clock := 0; t_trace := [] |}.

(** A call of the wrapper.  When [func] throws, the statements after it are
    not reached and the exception leaves the wrapper. *)
Definition throttled_call (limit t : Z) (args : A) (s : throttled) : throttled :=
  if inThrottle s then
    {| inThrottle := true; t_timers := t_timers s; t_clock := t;
       t_trace := Called t args :: t_trace s |}
  else
    match func args with
    | Throw _ =>
        {| inThrottle := false; t_timers := t_timers s; t_clock := t;
           t_trace := Invoked t args :: Called t args :: t_trace s |}
    | Normal _ =>
        let '(_, tbl) := setTimeout () limit t (t_timers s) in
        {| inThrottle := true; t_timers := tbl; t_clock := t;
           t_trace := Invoked t args :: Called t args :: t_trace s |}
    end.

Definition throttle_step (limit : Z) (s : throttled) (e : event A)
  : option throttled :=
  match e with
  | Call t args =>
      if t_clock s <=? t then Some (throttled_call limit t args s) else None
  | Fire t id =>
      match pending (t_timers s) !! id with
      | Some (due, _) =>
          if (t_clock s <=? t) && (due <=? t) then
            Some {| inThrottle := false;
                    t_timers := {| pending := delete id (pending (t_timers s));
                                   next_id := next_id (t_timers s) |};
                    t_clock := t;
                    t_trace := t_trace s |}
          else None
      | None => None
      end
  end.

End Wrappers.

(** A run: the events the browser produces, in order; [None] when the
    browser cannot produce them (the clock going back, a timer that is not
    pending or not yet due). *)
Fixpoint run {S E} (step : S -> E -> option S) (s : S) (evs : list E) : option S :=
  match evs with
  | [] => Some s
  | e :: evs' =>
      match step s e with
      | Some s' => run step s' evs'
      | None => None
      end
  end.

(** The number of invocations of the wrapped function in the window
    [[x, x + w)]. *)
Definition invocations_in {A} (x w : Z) (trace : list (obs A)) : nat :=
  length (filter (fun o => is_invoked o = true /\ x <= obs_time o < x + w) trace).

(** *** Vocabulary of the statements *)

Section Traces.
Context {A : Type}.
Implicit Types (trace : list (obs A)) (o : obs A).

(** Every invocation comes at least [w] after everything before it: the
    calls of the wrapper and the earlier invocations. *)
Fixpoint quiet (w : Z) trace : Prop :=
  match trace with
  | [] => True
  | o :: older =>
      (if is_invoked o
       then Forall (fun o' => obs_time o' + w <= obs_time o) older
       else True) /\
      quiet w older
  end.

(** Every invocation comes at least [w] after the invocations before it. *)
Fixpoint spaced (w : Z) trace : Prop :=
  match trace with
  | [] => True
  | o :: older =>
      (if is_invoked o
       then Forall (fun o' => is_invoked o' = true -> obs_time o' + w <= obs_time o) older
       else True) /\
      spaced w older
  end.

(** What holds of a debounced wrapper at every moment: the clock is past
    every observation; a pending timer is the one [timeout] names, and is
    due [wait] after everything observed; the trace is quiet. *)
Definition debounce_inv (wait : Z) (s : debounced (A := A)) : Prop :=
  Forall (fun o => obs_time o <= d_clock s) (d_trace s) /\
  (forall id due args,
     pending (d_timers s) !! id = Some (due, args) ->
     timeout s = Some id /\
     Forall (fun o => obs_time o + wait <= due) (d_trace s)) /\
  quiet wait (d_trace s).

Definition invoked_before (limit bound : Z) (trace : list (obs A)) : Prop :=
  Forall (fun o => is_invoked o = true -> obs_time o + limit <= bound) trace.

(** What holds of a throttled wrapper whose function returns: while
    [inThrottle] is set, one timer is pending, due [limit] after every
    invocation; while it is not, no timer is pending and every invocation
    is [limit] old. *)
Definition throttle_inv (limit : Z) (s : throttled (A := A)) : Prop :=
  Forall (fun o => obs_time o <= t_clock s) (t_trace s) /\
  spaced limit (t_trace s) /\
  (if inThrottle s
   then (forall id due cb,
           pending (t_timers s) !! id = Some (due, cb) ->
           invoked_before limit due (t_trace s)) /\
        (forall id id', is_Some (pending (t_timers s) !! id) ->
                        is_Some (pending (t_timers s) !! id') -> id = id')
   else pending (t_timers s) = ∅ /\
        invoked_before limit (t_clock s) (t_trace s)).

End Traces.

(** A function that throws whatever it is given, and one that returns. *)
Definition failing (_ : unit) : completion unit := Throw (UserError (lit "boom")).

Definition returning (_ : unit) : completion unit := Normal tt.

(** Three quick calls, then silence. *)
Definition burst : list (event unit) :=
  [Call 0 (); Call 10 (); Call 20 (); Fire 130 3].

(** Calls every 40 ms, the timer firing when it is due. *)
Definition steady : list (event unit) :=
  [Call 0 (); Call 40 (); Call 80 (); Fire 100 1; Call 120 (); Call 160 ()].

End Timers.

(** ** The admin mobile controller *)

Module Admin.

(** A JSON value, as [response.json()] gives it and as [JSON.stringify]
    sends it.  An object is the list of its properties. *)
#[warnings="-register-all"]
Inductive Json :=
| JNull
| JBool (b : bool)
| JNum (z : Z)
| JStr (s : jstring)
| JArr (elems : list Json)
| JObj (props : list (jstring * Json)).

(** [v.name], for the property names the controller reads ([success],
    [message], [borrower_name], [weixin_name]); [None] is [undefined].
    Reading a property of [null] throws; a string, a number, a boolean or
    an array has none of these properties. *)
Definition get_field (v : Json) (name : jstring) : completion (option Json) :=
  match v with
  | JNull => Throw TypeError
  | JObj props =>
      Normal (snd <$> List.find (fun p => bool_decide (fst p = name)) props)
  | _ => Normal None
  end.

Definition truthy (v : option Json) : bool :=
  match v with
  | None | Some JNull => false
  | Some (JBool b) => b
  | Some (JNum z) => negb (z =? 0)
  | Some (JStr s) => negb (bool_decide (s = []))
  | Some (JArr _) | Some (JObj _) => true
  end.

(** The id of a device is a number or a string; [===] tells them apart. *)
Inductive DeviceId :=
| IdNum (n : Z)
| IdStr (s : jstring).

#[global] Instance DeviceId_eq_dec : EqDecision DeviceId.
Proof. solve_decision. Defined.

(** [`${id}`] *)
Definition id_text (i : DeviceId) : jstring :=
  match i with
  | IdNum n => String_of_Z n
  | IdStr s => s
  end.

Record Device := {
  id : DeviceId;
  device_name : option jstring;
  model : option jstring;
  cabinet : option jstring;
  remarks : option jstring;
  borrower : option jstring;
  status : option jstring
}.

(** A request handed to [fetch]. *)
Record Request := {
  url : jstring;
  method : jstring;
  headers : list (jstring * jstring);
  body : option Json       (* the value [JSON.stringify] is applied to *)
}.

(** What the network answers: no answer at all (the promise of [fetch]
    rejects), or a response whose [json()] gives a value or rejects
    ([None]). *)
Inductive FetchOutcome :=
| NetFail
| Response (json : option Json).

(** What the page does that is seen outside the controller's globals. *)
Inductive Effect :=
| Fetch (r : Request)
| Toast (message : Json)      (* [showToast(message)] *)
| Reload                       (* [loadDevices()], of the sibling script *)
| StopPropagation.

(** What the modal shows: its title and the form put into its body. *)
Inductive Title :=
| TitleInitial
| TitleBorrow
| TitleReturn
| TitleTransfer
| TitleEdit
| TitleField (fieldType : jstring).

Inductive Body :=
| BodyInitial
| BodyEmpty
| BorrowForm (options : list (option Json * option Json))
| ReturnConfirm
| TransferForm (options : list (option Json * option Json))
| EditForm (d : Device)
| FieldForm (fieldType : jstring) (d : Device).

(** The globals of the script and the modal of the page:
    <<
    let currentDevice = null;
    let currentEditType = '';
    let longPressTimer = null;
    let users = [];
    >>
    with the effects so far, oldest first. *)
Record Page := {
  currentDevice : option Device;
  currentEditType : jstring;
  users : Json;
  modalShown : bool;
  modalTitle : Title;
  modalBody : Body;
  effects : list Effect
}.

Definition initial : Page :=
  {| currentDevice := None; currentEditType := []; users := JArr [];
     modalShown := false; modalTitle := TitleInitial; modalBody := BodyInitial;
     effects := [] |}.

Definition effect (e : Effect) : M Page unit :=
  modify (fun p =>
    {| currentDevice := currentDevice p; currentEditType := currentEditType p;
       users := users p; modalShown := modalShown p;
       modalTitle := modalTitle p; modalBody := modalBody p;
       effects := effects p ++ [e] |}).

Definition set_currentDevice (d : option Device) : M Page unit :=
  modify (fun p =>
    {| currentDevice := d; currentEditType := currentEditType p;
       users := users p; modalShown := modalShown p;
       modalTitle := modalTitle p; modalBody := modalBody p;
       effects := effects p |}).

Definition set_currentEditType (t : jstring) : M Page unit :=
  modify (fun p =>
    {| currentDevice := currentDevice p; currentEditType := t;
       users := users p; modalShown := modalShown p;
       modalTitle := modalTitle p; modalBody := modalBody p;
       effects := effects p |}).

Definition set_users (u : Json) : M Page unit :=
  modify (fun p =>
    {| currentDevice := currentDevice p; currentEditType := currentEditType p;
       users := u; modalShown := modalShown p;
       modalTitle := modalTitle p; modalBody := modalBody p;
       effects := effects p |}).

Definition set_modalShown (b : bool) : M Page unit :=
  modify (fun p =>
    {| currentDevice := currentDevice p; currentEditType := currentEditType p;
       users := users p; modalShown := b;
       modalTitle := modalTitle p; modalBody := modalBody p;
       effects := effects p |}).

Definition set_modalTitle (t : Title) : M Page unit :=
  modify (fun p =>
    {| currentDevice := currentDevice p; currentEditType := currentEditType p;
       users := users p; modalShown := modalShown p;
       modalTitle := t; modalBody := modalBody p;
       effects := effects p |}).

Definition set_modalBody (b : Body) : M Page unit :=
  modify (fun p =>
    {| currentDevice := currentDevice p; currentEditType := currentEditType p;
       users := users p; modalShown := modalShown p;
       modalTitle := modalTitle p; modalBody := b;
       effects := effects p |}).

(** [await fetch(url, options)] *)
Definition fetch (r : Request) (net : FetchOutcome) : M Page (option Json) :=
  effect (Fetch r);;
  match net with
  | NetFail => throw NetworkError
  | Response json => ret json
  end.

(** [await response.json()] on what [fetch] gave. *)
Definition json_of (response : option Json) : M Page Json :=
  match response with
  | Some v => ret v
  | None => throw SyntaxError
  end.

(** <<
    function showToast(message) {
        const toast = document.getElementById('toast');
        toast.textContent = message;
        toast.classList.add('show');
        setTimeout(() => { toast.classList.remove('show'); }, 2000);
    }
    >>
    The page has the element [toast]. *)
Definition showToast (message : Json) : M Page unit := effect (Toast message).

Definition msg_choose_borrower : jstring :=
  [35831; 36873; 25321; 20511; 29992; 20154]%N.
Definition msg_choose_new_borrower : jstring :=
  [35831; 36873; 25321; 26032; 20511; 29992; 20154]%N.
Definition msg_success : jstring := [25805; 20316; 25104; 21151]%N.
Definition msg_failure : jstring := [25805; 20316; 22833; 36133]%N.
Definition msg_network : jstring := [32593; 32476; 38169; 35823]%N.

(** <<
    async function loadUsers() {
        try {
            const response = await fetch('/api/users');
            users = await response.json();
        } catch (error) { console.error('加载用户列表失败', error); }
    }
    >> *)
Definition users_request : Request :=
  {| url := lit "/api/users"; method := lit "GET"; headers := []; body := None |}.

Definition loadUsers (net : FetchOutcome) : M Page unit :=
  try_catch
    (response ← fetch users_request net;
     u ← json_of response;
     set_users u)
    (fun _ => Utils.console_error).

(** [devices.find(d => d.id === deviceId)] *)
Definition find_device (devices : list Device) (deviceId : DeviceId) : option Device :=
  List.find (fun d => bool_decide (id d = deviceId)) devices.

(** [if (event) event.stopPropagation();] *)
Definition stop (event : bool) : M Page unit :=
  if event then effect StopPropagation else ret tt.

(** The options of the datalist,
    [users.map(u => `<option value="${u.borrower_name}">...`)]:
    [users.map] is a function on arrays only, and reading a property of a
    [null] element throws. *)
Fixpoint user_options (us : list Json)
  : completion (list (option Json * option Json)) :=
  match us with
  | [] => Normal []
  | u :: rest =>
      match get_field u (lit "borrower_name"), get_field u (lit "weixin_name") with
      | Normal b, Normal w =>
          match user_options rest with
          | Normal l => Normal ((b, w) :: l)
          | Throw e => Throw e
          end
      | Throw e, _ | _, Throw e => Throw e
      end
  end.

Definition users_map (u : Json) : completion (list (option Json * option Json)) :=
  match u with
  | JArr us => user_options us
  | _ => Throw TypeError
  end.

(** The end of every modal opener: the body is put in, the tag is set and
    the modal is shown.  The page has the elements [editModal],
    [editModalTitle] and [editModalBody]. *)
Definition open_modal (b : Body) (tag : jstring) : M Page unit :=
  set_modalBody b;;
  set_currentEditType tag;;
  set_modalShown true.

(** [showBorrowModal(deviceId, event)] up to its [await]. *)
Definition showBorrowModal_begin (devices : list Device) (deviceId : DeviceId)
    (event : bool) : M Page bool :=
  stop event;;
  match find_device devices deviceId with
  | None => ret false
  | Some device => set_currentDevice (Some device);; ret true
  end.

(** [showBorrowModal] from its [await] on. *)
Definition showBorrowModal_resume : M Page unit :=
  set_modalTitle TitleBorrow;;
  u ← gets users;
  options ← lift (users_map u);
  open_modal (BorrowForm options) (lit "borrow").

(** A whole call of [showBorrowModal], nothing else running in between. *)
Definition showBorrowModal (devices : list Device) (deviceId : DeviceId)
    (event : bool) (net : FetchOutcome) : M Page unit :=
  found ← showBorrowModal_begin devices deviceId event;
  if found : bool then loadUsers net;; showBorrowModal_resume else ret tt.

Definition showReturnModal (devices : list Device) (deviceId : DeviceId)
    (event : bool) : M Page unit :=
  stop event;;
  match find_device devices deviceId with
  | None => ret tt
  | Some device =>
      set_currentDevice (Some device);;
      set_modalTitle TitleReturn;;
      open_modal ReturnConfirm (lit "return")
  end.

Definition showTransferModal_resume : M Page unit :=
  set_modalTitle TitleTransfer;;
  u ← gets users;
  options ← lift (users_map u);
  open_modal (TransferForm options) (lit "transfer").

Definition showTransferModal (devices : list Device) (deviceId : DeviceId)
    (event : bool) (net : FetchOutcome) : M Page unit :=
  found ← showBorrowModal_begin devices deviceId event;
  if found : bool then loadUsers net;; showTransferModal_resume else ret tt.

Definition showEditModal (devices : list Device) (deviceId : DeviceId)
    (event : bool) : M Page unit :=
  stop event;;
  match find_device devices deviceId with
  | None => ret tt
  | Some device =>
      set_currentDevice (Some device);;
      set_modalTitle TitleEdit;;
      open_modal (EditForm device) (lit "edit")
  end.

(** The [switch (fieldType)] of [showEditFieldModal]: a form for the four
    field types, the empty string for any other. *)
Definition fieldContent (fieldType : jstring) (device : Device) : Body :=
  if bool_decide (fieldType ∈ [lit "borrower"; lit "cabinet"; lit "keeper"; lit "status"])
  then FieldForm fieldType device
  else BodyEmpty.

Definition showEditFieldModal (devices : list Device) (deviceId : DeviceId)
    (fieldType : jstring) (event : bool) : M Page unit :=
  stop event;;
  match find_device devices deviceId with
  | None => ret tt
  | Some device =>
      set_currentDevice (Some device);;
      set_modalTitle (TitleField fieldType);;
      open_modal (fieldContent fieldType device) (lit "field_" ++ fieldType)
  end.

(** <<
    function closeEditModal() {
        document.getElementById('editModal').classList.remove('show');
        currentDevice = null;
        currentEditType = '';
    }
    >> *)
Definition closeEditModal : M Page unit :=
  set_modalShown false;;
  set_currentDevice None;;
  set_currentEditType [].

(** [loadDevices()], of the sibling script: the list reload is asked for. *)
Definition loadDevices : M Page unit := effect Reload.

(** [document.getElementById(id).value]: the form controls of the page at
    the time of the call, by id; the element missing, [null.value] throws. *)
Definition value_of (inputs : gmap jstring jstring) (id : string) : M Page jstring :=
  match inputs !! lit id with
  | Some v => ret v
  | None => throw TypeError
  end.

(** [document.getElementById(id).value.trim()] *)
Definition trimmed_value_of (inputs : gmap jstring jstring) (id : string)
  : M Page jstring :=
  v ← value_of inputs id; mret (trim v).

Definition json_headers : list (jstring * jstring) :=
  [(lit "Content-Type", lit "application/json")].

(** [`/api/devices/${currentDevice.id}`] and what follows it. *)
Definition device_url (device : Device) (suffix : jstring) : jstring :=
  lit "/api/devices/" ++ id_text (id device) ++ suffix.

(** [parseInt(days)] inside [JSON.stringify]: [NaN] is sent as [null]. *)
Definition days_json (days : jstring) : Json :=
  match parseInt days with
  | Some z => JNum z
  | None => JNull
  end.

Definition borrow_request (device : Device) (user days remarks : jstring) : Request :=
  {| url := device_url device (lit "/borrow"); method := lit "POST";
     headers := json_headers;
     body := Some (JObj [(lit "user", JStr user); (lit "days", days_json days);
                         (lit "remarks", JStr remarks)]) |}.

Definition return_request (device : Device) : Request :=
  {| url := device_url device (lit "/return"); method := lit "POST";
     headers := json_headers; body := None |}.

Definition transfer_request (device : Device) (user remarks : jstring) : Request :=
  {| url := device_url device (lit "/transfer"); method := lit "POST";
     headers := json_headers;
     body := Some (JObj [(lit "user", JStr user); (lit "remarks", JStr remarks)]) |}.

Definition edit_request (device : Device) (model cabinet remarks : jstring) : Request :=
  {| url := device_url device []; method := lit "PUT";
     headers := json_headers;
     body := Some (JObj [(lit "model", JStr model); (lit "cabinet", JStr cabinet);
                         (lit "remarks", JStr remarks)]) |}.

Definition field_request (device : Device) (fieldName fieldValue : jstring) : Request :=
  {| url := device_url device []; method := lit "PUT";
     headers := json_headers;
     body := Some (JObj [(fieldName, JStr fieldValue)]) |}.

(** How the [switch] of [confirmEdit] is left: by its [return], or with
    [result] ([None] when no [case] matched and it is still undefined). *)
Inductive Flow :=
| Returned
| Result (result : option (option Json)).

(** The [switch (currentEditType)] of [confirmEdit]. *)
Definition dispatch (inputs : gmap jstring jstring) (net : FetchOutcome)
    (device : Device) (tag : jstring) : M Page Flow :=
  if bool_decide (tag = lit "borrow") then
    user ← trimmed_value_of inputs "editBorrowUser";
    days ← value_of inputs "editBorrowDays";
    remarks ← trimmed_value_of inputs "editBorrowRemarks";
    if bool_decide (user = []) then
      showToast (JStr msg_choose_borrower);; mret Returned
    else
      result ← fetch (borrow_request device user days remarks) net;
      mret (Result (Some result))
  else if bool_decide (tag = lit "return") then
    result ← fetch (return_request device) net;
    mret (Result (Some result))
  else if bool_decide (tag = lit "transfer") then
    transferUser ← trimmed_value_of inputs "editTransferUser";
    transferRemarks ← trimmed_value_of inputs "editTransferRemarks";
    if bool_decide (transferUser = []) then
      showToast (JStr msg_choose_new_borrower);; mret Returned
    else
      result ← fetch (transfer_request device transferUser transferRemarks) net;
      mret (Result (Some result))
  else if bool_decide (tag = lit "edit") then
    model ← trimmed_value_of inputs "editDeviceModel";
    cabinet ← trimmed_value_of inputs "editDeviceCabinet";
    remarks ← trimmed_value_of inputs "editDeviceRemarks";
    result ← fetch (edit_request device model cabinet remarks) net;
    mret (Result (Some result))
  else if bool_decide (tag ∈ [lit "field_borrower"; lit "field_cabinet";
                              lit "field_keeper"; lit "field_status"]) then
    fieldValue ← trimmed_value_of inputs "editFieldValue";
    let fieldName := replace_first (lit "field_") [] tag in
    result ← fetch (field_request device fieldName fieldValue) net;
    mret (Result (Some result))
  else mret (Result None).

(** The statements after the [switch]:
    <<
    const response = await result.json();
    if (response.success) {
        showToast('操作成功'); closeEditModal(); loadDevices();
    } else {
        showToast(response.message || '操作失败');
    }
    >> *)
Definition conclude (result : option (option Json)) : M Page unit :=
  match result with
  | None => throw TypeError
  | Some response =>
      response ← json_of response;
      success ← lift (get_field response (lit "success"));
      if truthy success then
        showToast (JStr msg_success);; closeEditModal;; loadDevices
      else
        message ← lift (get_field response (lit "message"));
        showToast (if truthy message then default JNull message
                   else JStr msg_failure)
  end.

(** <<
    async function confirmEdit() {
        if (!currentDevice) return;
        try { let result; switch (currentEditType) { ... } ... }
        catch (error) { showToast('网络错误'); }
    }
    >>
    [inputs] are the form controls of the page and [net] is what the
    network answers to the one request of the call.  The model is of the
    function as it reads, each [case] with its own constants: the source
    declares [const remarks] twice in the one block of the [switch] (in
    the cases [borrow] and [edit]), which an engine refuses when it loads
    the script. *)
Definition confirmEdit (inputs : gmap jstring jstring) (net : FetchOutcome)
  : M Page unit :=
  current ← gets currentDevice;
  match current with
  | None => mret tt
  | Some device =>
      try_catch
        (tag ← gets currentEditType;
         flow ← dispatch inputs net device tag;
         match flow with
         | Returned => mret tt
         | Result result => conclude result
         end)
        (fun _ => showToast (JStr msg_network))
  end.

(** *** Vocabulary of the statements *)

(** The page [p] after the effects [es], nothing else changed. *)
Definition record (es : list Effect) (p : Page) : Page :=
  {| currentDevice := currentDevice p; currentEditType := currentEditType p;
     users := users p; modalShown := modalShown p;
     modalTitle := modalTitle p; modalBody := modalBody p;
     effects := effects p ++ es |}.

(** The page [p] with the modal closed and the editing session reset. *)
Definition closed (p : Page) : Page :=
  {| currentDevice := None; currentEditType := [];
     users := users p; modalShown := false;
     modalTitle := modalTitle p; modalBody := modalBody p;
     effects := effects p |}.

(** The requests among some effects, in order. *)
Definition requests (es : list Effect) : list Request :=
  omap (fun e => match e with Fetch r => Some r | _ => None end) es.

(** The names of the properties of the body of a request. *)
Definition body_keys (r : Request) : list jstring :=
  match body r with
  | Some (JObj props) => props.*1
  | _ => []
  end.

(** The body keys the external-interface section lists for
    [PUT /api/devices/{id}]. *)
Definition listed_put_keys : list jstring :=
  [lit "model"; lit "cabinet"; lit "remarks"; lit "borrower"; lit "status"].

(** The trimmed value of a form control, if the page has it. *)
Definition trimmed_input (inputs : gmap jstring jstring) (name : string)
  : option jstring :=
  trim <$> inputs !! lit name.

(** The REST request of the external-interface section for an edit-type
    tag, written after the section's list, with the field edit of
    [keeper] next to the other field edits: the method, the path under
    [/api/devices/{id}], and the body made of the trimmed form fields.
    [None]: no request (a tag that is none of the eight, a form control
    that is missing, or an empty required field). *)
Definition interface_request (device : Device) (tag : jstring)
    (inputs : gmap jstring jstring) : option Request :=
  let path := lit "/api/devices/" ++ id_text (id device) in
  let send (method suffix : jstring) (body : option Json) :=
    {| url := path ++ suffix; method := method;
       headers := [(lit "Content-Type", lit "application/json")];
       body := body |} in
  if bool_decide (tag = lit "borrow") then
    user ← trimmed_input inputs "editBorrowUser";
    days ← inputs !! lit "editBorrowDays";
    remarks ← trimmed_input inputs "editBorrowRemarks";
    if bool_decide (user = []) then None
    else Some (send (lit "POST") (lit "/borrow")
                 (Some (JObj [(lit "user", JStr user);
                              (lit "days", days_json days);
                              (lit "remarks", JStr remarks)])))
  else if bool_decide (tag = lit "return") then
    Some (send (lit "POST") (lit "/return") None)
  else if bool_decide (tag = lit "transfer") then
    user ← trimmed_input inputs "editTransferUser";
    remarks ← trimmed_input inputs "editTransferRemarks";
    if bool_decide (user = []) then None
    else Some (send (lit "POST") (lit "/transfer")
                 (Some (JObj [(lit "user", JStr user);
                              (lit "remarks", JStr remarks)])))
  else if bool_decide (tag = lit "edit") then
    model ← trimmed_input inputs "editDeviceModel";
    cabinet ← trimmed_input inputs "editDeviceCabinet";
    remarks ← trimmed_input inputs "editDeviceRemarks";
    Some (send (lit "PUT") []
            (Some (JObj [(lit "model", JStr model);
                         (lit "cabinet", JStr cabinet);
                         (lit "remarks", JStr remarks)])))
  else if bool_decide (tag = lit "field_borrower") then
    v ← trimmed_input inputs "editFieldValue";
    Some (send (lit "PUT") [] (Some (JObj [(lit "borrower", JStr v)])))
  else if bool_decide (tag = lit "field_cabinet") then
    v ← trimmed_input inputs "editFieldValue";
    Some (send (lit "PUT") [] (Some (JObj [(lit "cabinet", JStr v)])))
  else if bool_decide (tag = lit "field_keeper") then
    v ← trimmed_input inputs "editFieldValue";
    Some (send (lit "PUT") [] (Some (JObj [(lit "keeper", JStr v)])))
  else if bool_decide (tag = lit "field_status") then
    v ← trimmed_input inputs "editFieldValue";
    Some (send (lit "PUT") [] (Some (JObj [(lit "status", JStr v)])))
  else None.

(** What the external-interface section lists for a tag: the method, the
    path and the keys of the body. *)
Definition interface_listing (device : Device) (tag : jstring) (r : Request) : Prop :=
  let base := lit "/api/devices/" ++ id_text (id device) in
  (tag = lit "borrow" /\ method r = lit "POST" /\
   url r = base ++ lit "/borrow" /\
   body_keys r = [lit "user"; lit "days"; lit "remarks"]) \/
  (tag = lit "return" /\ method r = lit "POST" /\
   url r = base ++ lit "/return" /\ body r = None) \/
  (tag = lit "transfer" /\ method r = lit "POST" /\
   url r = base ++ lit "/transfer" /\
   body_keys r = [lit "user"; lit "remarks"]) \/
  (tag = lit "edit" /\ method r = lit "PUT" /\ url r = base /\
   body_keys r = [lit "model"; lit "cabinet"; lit "remarks"]) \/
  (exists f,
     f ∈ [lit "borrower"; lit "cabinet"; lit "keeper"; lit "status"] /\
     tag = lit "field_" ++ f /\ method r = lit "PUT" /\ url r = base /\
     body_keys r = [f]).

(** The toast of a refused operation: the server's message when it is there
    and not empty, the generic failure string otherwise. *)
Definition failure_toast (message : option Json) : Json :=
  match message with
  | Some (JStr (c :: s)) => JStr (c :: s)
  | _ => JStr msg_failure
  end.

(** The user list is usable by the borrow and transfer forms: an array
    without [null] elements. *)
Definition user_array (u : Json) : Prop :=
  match u with
  | JArr us => Forall (fun x => x <> JNull) us
  | _ => False
  end.

(** The value of [users] once [loadUsers] is over. *)
Definition users_after (net : FetchOutcome) (p : Page) : Json :=
  match net with
  | Response (Some u) => u
  | _ => users p
  end.

(** The eight tags the [switch] of [confirmEdit] knows. *)
Definition known_tags : list jstring :=
  [lit "borrow"; lit "return"; lit "transfer"; lit "edit";
   lit "field_borrower"; lit "field_cabinet"; lit "field_keeper";
   lit "field_status"].

(** The toast of a call that sends nothing. *)
Definition silent_toasts : list Json :=
  [JStr msg_choose_borrower; JStr msg_choose_new_borrower; JStr msg_network].

(** *** Sample data *)

Definition pad : Device :=
  {| id := IdNum 7; device_name := Some (lit "pad"); model := None;
     cabinet := Some (lit "A3"); remarks := None; borrower := None;
     status := None |}.

(** A page in the middle of an edit of [pad]. *)
Definition editing (tag : jstring) : Page :=
  {| currentDevice := Some pad; currentEditType := tag; users := JArr [];
     modalShown := true; modalTitle := TitleInitial; modalBody := BodyInitial;
     effects := [] |}.

Definition filled : gmap jstring jstring :=
  {[ lit "editFieldValue" := lit " Bob ";
     lit "editBorrowUser" := lit "  ";
     lit "editBorrowDays" := lit "3";
     lit "editBorrowRemarks" := lit "demo" ]}.

Definition refused_quietly : Json :=
  JObj [(lit "success", JBool false); (lit "message", JStr [])].

Definition two_users : Json :=
  JArr [JObj [(lit "borrower_name", JStr (lit "Ann")); (lit "weixin_name", JNull)];
        JObj [(lit "borrower_name", JStr (lit "Bo"))]].

Definition not_logged_in : Json :=
  JObj [(lit "success", JBool false); (lit "message", JStr (lit "login"))].

(** The session a modal opener leaves: the device, the tag, the modal
    shown. *)
Definition opened (device : Device) (tag : jstring) (r : completion unit * Page) : Prop :=
  r.1 = Normal tt /\
  currentDevice r.2 = Some device /\
  currentEditType r.2 = tag /\
  modalShown r.2 = true.

(** The result of an opener that found no device: at most the event is
    stopped. *)
Definition untouched (event : bool) (p : Page) : completion unit * Page :=
  (Normal tt, record (if event then [StopPropagation] else []) p).

(** Running the statements of the controller by unfolding them. *)
Ltac run_js :=
  cbv [mbind M_bind bind mret M_ret ret gets modify try_catch lift throw
       effect showToast closeEditModal loadDevices fetch json_of
       set_currentDevice set_currentEditType set_users set_modalShown
       set_modalTitle set_modalBody open_modal stop Utils.console_error
       value_of trimmed_value_of
       currentDevice currentEditType users modalShown modalTitle modalBody
       effects].

End Admin.

(** ** The utility library: the helpers that touch the page *)

Module UtilsPage.
Import Timers.

(** *** showToast
    <<
    function showToast(message, duration = 2000) {
        const toast = document.getElementById('toast');
        if (!toast) return;
        toast.textContent = message;
        toast.classList.add('show');
        setTimeout(() => { toast.classList.remove('show'); }, duration);
    }
    >>
    Of the element [toast] the function touches the text and the class
    [show]; the page may lack the element. *)
Record ToastElement := {
  textContent : jstring;
  shown : bool               (* [classList] holds [show] *)
}.

(** The page of [showToast]: the element, the pending timers (the one
    callback there is removes the class [show]) and the clock. *)
Record toast_page := {
  toast : option ToastElement;
  toast_timers : timer_table unit;
  toast_clock : Z
}.

(** What the setter of [textContent] stores: [null] is the empty string,
    any other value its string. *)
Definition text_of (message : Utils.value) : jstring :=
  match message with
  | Utils.VNull => []
  | _ => Utils.ToString message
  end.

(** [duration] is a number, or [None] when the caller leaves it out. *)
Definition showToast (message : Utils.value) (duration : option Z) (now : Z)
    (p : toast_page) : toast_page :=
  match toast p with
  | None => {| toast := None; toast_timers := toast_timers p; toast_clock := now |}
  | Some _ =>
      let '(_, tbl) := setTimeout () (default 2000 duration) now (toast_timers p) in
      {| toast := Some {| textContent := text_of message; shown := true |};
         toast_timers := tbl;
         toast_clock := now |}
  end.

(** The callback of a timer: [toast.classList.remove('show')]. *)
Definition hide_toast (el : ToastElement) : ToastElement :=
  {| textContent := textContent el; shown := false |}.

(** The browser calls [showToast] or fires a pending timer that is due. *)
Definition toast_step (p : toast_page) (e : event (Utils.value * option Z))
  : option toast_page :=
  match e with
  | Call t (message, duration) =>
      if toast_clock p <=? t then Some (showToast message duration t p) else None
  | Fire t id =>
      match pending (toast_timers p) !! id with
      | Some (due, _) =>
          if (toast_clock p <=? t) && (due <=? t) then
            Some {| toast := hide_toast <$> toast p;
                    toast_timers := {| pending := delete id (pending (toast_timers p));
                                       next_id := next_id (toast_timers p) |};
                    toast_clock := t |}
          else None
      | None => None
      end
  end.

(** A page as it is loaded: the toast hidden, if it is there, and no
    timer. *)
Definition loaded (el : option ToastElement) : toast_page :=
  {| toast := hide_toast <$> el; toast_timers := no_timers; toast_clock := 0 |}.

(** *** request
    <<
    function request(url, options = {}) {
        const defaultOptions = {
            method: 'GET',
            headers: { 'Content-Type': 'application/json' },
        };
        const mergedOptions = { ...defaultOptions, ...options };
        if (mergedOptions.body && typeof mergedOptions.body === 'object') {
            mergedOptions.body = JSON.stringify(mergedOptions.body);
        }
        return fetch(url, mergedOptions)
            .then(response => {
                if (!response.ok) {
                    throw new Error('Network response was not ok');
                }
                return response.json();
            });
    }
    >>
    An options object is the map of its properties, each a JSON value. *)
Definition defaultOptions : gmap jstring Admin.Json :=
  {[ lit "method" := Admin.JStr (lit "GET");
     lit "headers" := Admin.JObj [(lit "Content-Type",
                                   Admin.JStr (lit "application/json"))] ]}.

(** [typeof v === 'object'] *)
Definition typeof_object (v : Admin.Json) : bool :=
  match v with
  | Admin.JNull | Admin.JArr _ | Admin.JObj _ => true
  | Admin.JBool _ | Admin.JNum _ | Admin.JStr _ => false
  end.

(** A property of the options handed to [fetch]: the value as the caller
    gave it, or the text [JSON.stringify] makes of it. *)
Inductive Sent :=
| Plain (v : Admin.Json)
| Serialized (v : Admin.Json).

(** What the network answers to a [fetch]: nothing (the promise rejects),
    or a response with its [ok] flag and what its [json()] gives ([None]
    when the body is not JSON). *)
Inductive HttpOutcome :=
| Unreachable
| Answered (ok : bool) (json : option Admin.Json).

(** How the promise that [request] returns is settled. *)
Inductive Settled :=
| Resolved (v : Admin.Json)
| Rejected (e : exn).

Definition not_ok : exn := UserError (lit "Network response was not ok").

(** The options of the call of [fetch] that [request] makes. *)
Definition request_options (options : option (gmap jstring Admin.Json))
  : gmap jstring Sent :=
  let mergedOptions := default ∅ options ∪ defaultOptions in
  match mergedOptions !! lit "body" with
  | Some b =>
      if Admin.truthy (Some b) && typeof_object b
      then <[lit "body" := Serialized b]> (Plain <$> mergedOptions)
      else Plain <$> mergedOptions
  | None => Plain <$> mergedOptions
  end.

(** The [then] of [request] on what the network answers. *)
Definition request_settles (net : HttpOutcome) : Settled :=
  match net with
  | Unreachable => Rejected NetworkError
  | Answered ok json =>
      if negb ok then Rejected not_ok
      else match json with
           | Some v => Resolved v
           | None => Rejected SyntaxError
           end
  end.

(** [options] is [None] when the caller leaves the argument out. *)
Definition request (url : jstring) (options : option (gmap jstring Admin.Json))
    (net : HttpOutcome) : (jstring * gmap jstring Sent) * Settled :=
  ((url, request_options options), request_settles net).

(** *** The guard against the double-tap zoom
    <<
    let lastTouchEnd = 0;
    document.addEventListener('touchend', function(event) {
        const now = Date.now();
        if (now - lastTouchEnd <= 300) { event.preventDefault(); }
        lastTouchEnd = now;
    }, false);
    >>
    One run of the listener at the time [now]: whether the event is
    prevented, and the new [lastTouchEnd]. *)
Definition touchend (now lastTouchEnd : Z) : bool * Z :=
  (bool_decide (now - lastTouchEnd <= 300), now).

(** The listener on the touches of a page, in order: the verdict on each. *)
Fixpoint touchends (lastTouchEnd : Z) (nows : list Z) : list bool :=
  match nows with
  | [] => []
  | now :: rest =>
      let '(prevented, last) := touchend now lastTouchEnd in
      prevented :: touchends last rest
  end.

(** *** getCurrentLocation
    <<
    function getCurrentLocation(callback) {
        if (typeof wx !== 'undefined') {
            wx.getLocation({ type: 'gcj02',
                success: function(res) { callback && callback({
                    latitude: res.latitude, longitude: res.longitude,
                    success: true }); },
                fail: function() { callback && callback({ success: false }); } });
        } else if (navigator.geolocation) {
            navigator.geolocation.getCurrentPosition(
                function(position) { callback && callback({
                    latitude: position.coords.latitude,
                    longitude: position.coords.longitude, success: true }); },
                function() { callback && callback({ success: false }); });
        } else {
            callback && callback({ success: false });
        }
    }
    >>
    A provider of positions answers a request once, with a position or a
    failure, or never.  The coordinates are handed on as they come. *)
Section Location.
Context {Coordinate : Type}.

Inductive Answer :=
| Located (latitude longitude : Coordinate)
| Failed
| Silent.

(** What the callback is given: [{latitude, longitude, success: true}] or
    [{success: false}]. *)
Inductive Report :=
| Position (latitude longitude : Coordinate)
| NoPosition.

(** The page: the WeChat SDK and the browser's geolocation, each with the
    answer it will give, or absent. *)
Record Providers := {
  wx : option Answer;
  geolocation : option Answer
}.

(** The calls a provider makes of the handlers it was given. *)
Definition handled (a : Answer) : list Report :=
  match a with
  | Located latitude longitude => [Position latitude longitude]
  | Failed => [NoPosition]
  | Silent => []
  end.

(** The calls of [callback], in order; [callback] is [false] when the
    caller gave none. *)
Definition getCurrentLocation (env : Providers) (callback : bool) : list Report :=
  let guarded (reports : list Report) := if callback then reports else [] in
  match wx env with
  | Some a => guarded (handled a)
  | None =>
      match geolocation env with
      | Some a => guarded (handled a)
      | None => guarded [NoPosition]
      end
  end.

End Location.

Arguments Answer : clear implicits.
Arguments Report : clear implicits.
Arguments Providers : clear implicits.

(** *** showReasonTooltip
    <<
    function showReasonTooltip(btn, reason) {
        let tooltip = document.getElementById('reasonTooltip');
        if (!tooltip) {
            tooltip = document.createElement('div');
            tooltip.id = 'reasonTooltip';
            tooltip.style.cssText = '...display:none;...';
            document.body.appendChild(tooltip);
        }
        tooltip.textContent = reason;
        const rect = btn.getBoundingClientRect();
        tooltip.style.left = rect.left + 'px';
        tooltip.style.top = (rect.bottom + 8) + 'px';
        tooltip.style.display = 'block';
        setTimeout(() => {
            document.addEventListener('click', function hide() {
                tooltip.style.display = 'none';
                document.removeEventListener('click', hide);
            });
        }, 100);
    }
    >>
    Of the tooltip the function touches the text, the position and
    [display]. *)
Record Rect := {
  rect_left : Z;
  rect_bottom : Z
}.

Record TooltipElement := {
  tip_text : jstring;
  style_left : jstring;
  style_top : jstring;
  displayed : bool          (* [display] is [block], not [none] *)
}.

(** The page of the tooltip: the element [reasonTooltip] if the document
    has it, how many elements the function has created, how many [hide]
    listeners the document has for [click], the pending timers (the one
    callback there is adds a [hide] listener) and the clock. *)
Record tip_page := {
  tooltip : option TooltipElement;
  created : nat;
  hide_listeners : nat;
  tip_timers : timer_table unit;
  tip_clock : Z
}.

Definition px (z : Z) : jstring := String_of_Z z ++ lit "px".

Definition showReasonTooltip (btn : Rect) (reason : jstring) (now : Z)
    (p : tip_page) : tip_page :=
  let '(_, tbl) := setTimeout () 100 now (tip_timers p) in
  {| tooltip := Some {| tip_text := reason;
                        style_left := px (rect_left btn);
                        style_top := px (rect_bottom btn + 8);
                        displayed := true |};
     created := match tooltip p with
                | None => S (created p)
                | Some _ => created p
                end;
     hide_listeners := hide_listeners p;
     tip_timers := tbl;
     tip_clock := now |}.

(** What the browser does to the page of the tooltip. *)
Inductive tip_event :=
| Tip (t : Z) (btn : Rect) (reason : jstring)  (* [showReasonTooltip] is called *)
| TipTimer (t : Z) (id : nat)                   (* a pending timer fires *)
| Click (t : Z).                                (* a click reaches the document *)

(** [hide] on the tooltip. *)
Definition hide_tip (el : TooltipElement) : TooltipElement :=
  {| tip_text := tip_text el; style_left := style_left el;
     style_top := style_top el; displayed := false |}.

(** A click runs every [hide] listener of the document: each hides the
    tooltip and takes itself off. *)
Definition tip_step (p : tip_page) (e : tip_event) : option tip_page :=
  match e with
  | Tip t btn reason =>
      if tip_clock p <=? t then Some (showReasonTooltip btn reason t p) else None
  | TipTimer t id =>
      match pending (tip_timers p) !! id with
      | Some (due, _) =>
          if (tip_clock p <=? t) && (due <=? t) then
            Some {| tooltip := tooltip p;
                    created := created p;
                    hide_listeners := S (hide_listeners p);
                    tip_timers := {| pending := delete id (pending (tip_timers p));
                                     next_id := next_id (tip_timers p) |};
                    tip_clock := t |}
          else None
      | None => None
      end
  | Click t =>
      if tip_clock p <=? t then
        Some (match hide_listeners p with
              | O => {| tooltip := tooltip p; created := created p;
                        hide_listeners := O; tip_timers := tip_timers p;
                        tip_clock := t |}
              | S _ => {| tooltip := hide_tip <$> tooltip p; created := created p;
                          hide_listeners := O; tip_timers := tip_timers p;
                          tip_clock := t |}
              end)
      else None
  end.

(** A document without the tooltip, as the pages ship it. *)
Definition no_tooltip : tip_page :=
  {| tooltip := None; created := 0; hide_listeners := 0;
     tip_timers := no_timers; tip_clock := 0 |}.

End UtilsPage.

(** ** Vocabulary and sample data of the further properties *)

Module More.

(** A form with a number in a field whose rule is a message. *)
Definition aged_form : gmap jstring Utils.value :=
  {[ lit "tel" := Utils.VStr (lit "12"); lit "age" := Utils.VNum 5 ]}.

Definition aged_rules : list (jstring * list Utils.rule) :=
  [(lit "tel", [Utils.RuleArr [Utils.VStr (lit "phone")]]);
   (lit "age", [Utils.RuleStr (lit "age?")])].

Section TraceShapes.
Context {A : Type}.

(** Every invocation of the trace comes right after a call of the wrapper,
    carries the arguments of that call, and the two times are as [gap]
    says. *)
Fixpoint answers (gap : Z -> Z -> Prop) (trace : list (Timers.obs A)) : Prop :=
  match trace with
  | [] => True
  | Timers.Invoked t a :: older =>
      match older with
      | Timers.Called c a' :: _ => a' = a /\ gap c t
      | _ => False
      end /\ answers gap older
  | Timers.Called _ _ :: older => answers gap older
  end.

(** The calls of the wrapper and the invocations of the wrapped function
    in a trace. *)
Definition calls (trace : list (Timers.obs A)) : nat :=
  length (filter (fun o => Timers.is_invoked o = false) trace).

Definition invocations (trace : list (Timers.obs A)) : nat :=
  length (filter (fun o => Timers.is_invoked o = true) trace).

(** A pending timer of a debounced wrapper is the timer of the last call:
    it carries the arguments of that call and is due [wait] after it. *)
Definition last_call_pending (wait : Z) (s : Timers.debounced (A := A)) : Prop :=
  forall id due args,
    Timers.pending (Timers.d_timers s) !! id = Some (due, args) ->
    exists c rest,
      Timers.d_trace s = Timers.Called c args :: rest /\
      due = c + Z.max 0 wait.

(** What holds of a debounced wrapper at every moment, besides
    [debounce_inv]. *)
Definition served (wait : Z) (s : Timers.debounced (A := A)) : Prop :=
  Timers.debounce_inv wait s /\
  answers (fun c t => c + Z.max 0 wait <= t) (Timers.d_trace s) /\
  last_call_pending wait s.

(** A throttled wrapper that has never been held back. *)
Definition unthrottled (s : Timers.throttled (A := A)) : Prop :=
  Timers.inThrottle s = false /\
  Timers.pending (Timers.t_timers s) = ∅ /\
  invocations (Timers.t_trace s) = calls (Timers.t_trace s).

End TraceShapes.

(** Two calls with different arguments, then silence. *)
Definition two_words : list (Timers.event jstring) :=
  [Timers.Call 0 (lit "a"); Timers.Call 50 (lit "ab"); Timers.Fire 150 2].

(** A function that throws whatever it is given. *)
Definition refusing (_ : jstring) : completion unit := Throw TypeError.

(** The answer of the network makes [confirmEdit] close the modal: a JSON
    value that is not [null], with a truthy [success]. *)
Definition succeeds (net : Admin.FetchOutcome) : bool :=
  match net with
  | Admin.Response (Some response) =>
      match Admin.get_field response (lit "success") with
      | Normal success => Admin.truthy success
      | Throw _ => false
      end
  | _ => false
  end.

(** What [if (event) event.stopPropagation()] does. *)
Definition stops (event : bool) : list Admin.Effect :=
  if event then [Admin.StopPropagation] else [].

(** The page [p] with an editing session opened on it: the device, the
    tag, the user list, the modal shown with a title and a body, and the
    effects [es] on top. *)
Definition session (device : Admin.Device) (tag : jstring) (us : Admin.Json)
    (title : Admin.Title) (body : Admin.Body) (es : list Admin.Effect)
    (p : Admin.Page) : Admin.Page :=
  {| Admin.currentDevice := Some device; Admin.currentEditType := tag;
     Admin.users := us; Admin.modalShown := true;
     Admin.modalTitle := title; Admin.modalBody := body;
     Admin.effects := Admin.effects p ++ es |}.

(** The field types [showEditFieldModal] has a form for. *)
Definition field_types : list jstring :=
  [lit "borrower"; lit "cabinet"; lit "keeper"; lit "status"].

(** A server that accepts. *)
Definition accepted : Admin.Json := Admin.JObj [(lit "success", Admin.JBool true)].

(** What holds of the page of [showToast] at every moment: a toast on
    screen has a timer pending, and a page without the element has no
    timer. *)
Definition toast_visible_inv (p : UtilsPage.toast_page) : Prop :=
  (forall el,
     UtilsPage.toast p = Some el -> UtilsPage.shown el = true ->
     exists id, is_Some (Timers.pending (UtilsPage.toast_timers p) !! id)) /\
  (UtilsPage.toast p = None -> Timers.pending (UtilsPage.toast_timers p) = ∅).

(** What holds of the page of the tooltip at every moment: one element
    was created if the document has the tooltip, and a tooltip on screen
    has a [hide] listener or a timer pending. *)
Definition tip_inv (p : UtilsPage.tip_page) : Prop :=
  UtilsPage.created p
  = match UtilsPage.tooltip p with Some _ => 1%nat | None => 0%nat end /\
  (forall el,
     UtilsPage.tooltip p = Some el -> UtilsPage.displayed el = true ->
     (0 < UtilsPage.hide_listeners p)%nat \/
     exists id, is_Some (Timers.pending (UtilsPage.tip_timers p) !! id)).

Definition blank_toast : UtilsPage.ToastElement :=
  {| UtilsPage.textContent := []; UtilsPage.shown := false |}.

(** A toast for the default two seconds, and a second one for five seconds
    a second and a half later. *)
Definition two_toasts : list (Timers.event (Utils.value * option Z)) :=
  [Timers.Call 0 (Utils.VStr (lit "sending"), None);
   Timers.Call 1500 (Utils.VStr (lit "saved"), Some 5000)].

(** A tooltip that is dismissed by a click, and a second one. *)
Definition two_tips : list UtilsPage.tip_event :=
  [UtilsPage.Tip 0 {| UtilsPage.rect_left := 10; UtilsPage.rect_bottom := 20 |}
     (lit "early");
   UtilsPage.TipTimer 100 1;
   UtilsPage.Click 200;
   UtilsPage.Tip 300 {| UtilsPage.rect_left := 10; UtilsPage.rect_bottom := 60 |}
     (lit "late")].

(** The borrow form, filled in. *)
Definition borrow_form : gmap jstring jstring :=
  {[ lit "editBorrowUser" := lit " Ann ";
     lit "editBorrowDays" := lit "14";
     lit "editBorrowRemarks" := lit " " ]}.

(** The evening of [epiphany]. *)
Definition later_that_day : Utils.Date :=
  {| Utils.getFullYear := 2024; Utils.getMonth := 0; Utils.getDate := 6;
     Utils.getHours := 21; Utils.getMinutes := 30 |}.

End More.


(** ** The utility library: properties *)

Module UtilsFacts.
Import Utils.

(** *** maskPhone *)

Example maskPhone_sample :
  maskPhone (Some (lit "13812345678")) = Some (lit "138****5678").
Proof. reflexivity. Qed.

(** The test is on the length alone: eleven code units that are not digits
    are masked as well. *)
Example maskPhone_eleven_letters :
  maskPhone (Some (lit "abcdefghijk")) = Some (lit "abc****hijk").
Proof. reflexivity. Qed.

(** A string of eleven code units, spelled out. *)
Lemma length_eleven (s : jstring) :
  length s = 11%nat ->
  exists a b c d e f g h i j k, s = [a; b; c; d; e; f; g; h; i; j; k].
Proof.
  intros H.
  do 11 (destruct s as [|? s]; [discriminate H|]).
  destruct s; [|discriminate H]. by repeat eexists.
Qed.




(** *** validateForm *)

Lemma required_string s message :
  exists x, validators.required (VStr s) message = Normal x.
Proof.
  unfold validators.required. destruct (truthy (VStr s)); cbn [negb];
    [case_bool_decide|]; by eexists.
Qed.

Lemma call_string name s args :
  name ∈ known_validators ->
  exists x, validators.call name (VStr s) args = Normal x.
Proof.
  intros Hname%list_elem_of_In. cbn [In known_validators] in Hname.
  unfold validators.call.
  destruct Hname as [<-|[<-|[<-|[<-|[]]]]]; decide_closed.
  - apply required_string.
  - unfold validators.phone. destruct (negb _); by eexists.
  - unfold validators.minLength. cbn [length_of].
    destruct (number_lt _ _); by eexists.
  - unfold validators.maxLength. cbn [length_of].
    destruct (ToNumber _) as [y|]; [destruct (y <? _)|]; by eexists.
Qed.

Lemma apply_rule_string s r :
  rule_applies (VStr s) r -> exists x, apply_rule (VStr s) r = Normal x.
Proof.
  destruct r as [f|m|elems|]; cbn [rule_applies apply_rule].
  - done.
  - intros _. apply required_string.
  - apply call_string.
  - by eexists.
Qed.

(** The inner loop stops at the first result that is not [true], whatever
    comes after it. *)
Lemma check_field_short_circuit v pre r post x :
  Forall (passes v) pre ->
  apply_rule v r = Normal x -> x <> VBool true ->
  check_field v (pre ++ r :: post) = Normal (Some x).
Proof.
  intros Hpre Hr Hx. induction Hpre as [|r' pre Hr' _ IH]; cbn [app check_field].
  - rewrite Hr. by rewrite bool_decide_eq_false_2.
  - rewrite Hr'. by rewrite bool_decide_eq_true_2.
Qed.

Lemma check_field_all_pass v rs :
  Forall (passes v) rs -> check_field v rs = Normal None.
Proof.
  induction 1 as [|r rs Hr _ IH]; cbn [check_field]; [done|].
  rewrite Hr. by rewrite bool_decide_eq_true_2.
Qed.

Lemma check_field_first_failure v rs :
  Forall (fun r => exists x, apply_rule v r = Normal x) rs ->
  exists o, check_field v rs = Normal o /\ first_failure v rs o.
Proof.
  induction 1 as [|r rs [x Hr] _ (o & Hrun & Ho)].
  - exists None. split; [done|]. constructor.
  - cbn [check_field]. rewrite Hr. case_bool_decide as Hx.
    + subst x. exists o. split; [done|]. destruct o as [y|]; cbn in *.
      * destruct Ho as (pre & r0 & post & -> & Hpre & Hr0 & Hy).
        exists (r :: pre), r0, post. split_and!; try done. by constructor.
      * by constructor.
    + exists (Some x). split; [done|].
      exists [], r, rs. by split_and!.
Qed.

Lemma check_fields_lookup formData rules acc :
  NoDup rules.*1 ->
  (forall field, field ∈ rules.*1 -> acc !! field = None) ->
  Forall (fun fr => exists o, check_field (field_value formData fr.1) fr.2 = Normal o) rules ->
  exists errs,
    check_fields formData rules acc = Normal errs /\
    (forall field fieldRules,
       (field, fieldRules) ∈ rules ->
       check_field (field_value formData field) fieldRules = Normal (errs !! field)) /\
    (forall field, field ∉ rules.*1 -> errs !! field = acc !! field).
Proof.
  intros Hnd Hacc Hall. revert acc Hnd Hacc.
  induction Hall as [|[field fieldRules] rules [o Ho] _ IH]; intros acc Hnd Hacc.
  - exists acc. split_and!; [done| |done]. intros ?? Hin. by apply elem_of_nil in Hin.
  - cbn [fmap list_fmap fst] in Hnd, Hacc. apply NoDup_cons in Hnd as [Hfresh Hnd].
    cbn [check_fields]. cbn [fst snd] in Ho. rewrite Ho.
    set (acc' := match o with Some x => <[field := x]> acc | None => acc end).
    destruct (IH acc' Hnd) as (errs & Hrun & Hin & Hout).
    { intros f Hf. subst acc'. destruct o.
      - rewrite lookup_insert_ne; [|by intros ->]. apply Hacc. by right.
      - apply Hacc. by right. }
    exists errs. split_and!.
    + subst acc'. by destruct o.
    + intros f frs [Heq|Hrest]%elem_of_cons.
      * injection Heq as -> ->. rewrite Ho. f_equal.
        rewrite (Hout field Hfresh). subst acc'.
        destruct o; [by rewrite lookup_insert_eq|].
        symmetry. apply Hacc. by left.
      * by apply Hin.
    + intros f Hf. cbn [fmap list_fmap fst] in Hf.
      apply not_elem_of_cons in Hf as [Hne Hf].
      rewrite (Hout f Hf). subst acc'.
      destruct o; [by rewrite lookup_insert_ne|done].
Qed.






(** *** storage *)

Section StorageFacts.
Context {V : Type} `{JSON V}.

Lemma storage_set_get ls key v d :
  representable v -> accepts ls key v ->
  (storage_get key d (storage_set key v ls).2).1 = Normal v.
Proof.
  unfold representable, accepts. intros Hrep [Hav Hroom].
  destruct (stringify v) as [o|] eqn:Hs; [|done].
  specialize (Hroom o eq_refl). apply N.leb_le in Hroom.
  unfold storage_set, storage_get, setItem, getItem, try_catch, lift.
  cbv [mbind M_bind bind mret M_ret ret console_error].
  rewrite Hs, Hav, Hroom. cbn [available items fst snd].
  rewrite lookup_insert_eq.
  destruct (item_text o) as [|c t] eqn:Ht.
  - by rewrite parse_empty in Hrep.
  - by rewrite Hrep.
Qed.

Lemma storage_get_absent ls key d :
  items ls !! key = None -> storage_get key d ls = (Normal d, ls).
Proof.
  intros Hk. unfold storage_get, getItem, try_catch.
  cbv [mbind M_bind bind mret M_ret ret console_error].
  destruct (available ls); [by rewrite Hk|done].
Qed.

Lemma storage_never_throws ls key v d :
  (storage_set key v ls).1 = Normal tt /\
  (exists x, (storage_get key d ls).1 = Normal x) /\
  (storage_remove key ls).1 = Normal tt.
Proof.
  split_and!.
  - unfold storage_set, setItem, try_catch, lift.
    cbv [mbind M_bind bind mret M_ret ret console_error].
    destruct (stringify v); [|done].
    destruct (available ls); [|done]. by destruct (_ <=? _)%N.
  - unfold storage_get, getItem, try_catch, lift.
    cbv [mbind M_bind bind mret M_ret ret console_error].
    destruct (available ls); [|by eexists].
    destruct (items ls !! key) as [[|c t]|]; try by eexists.
    destruct (parse (c :: t)); by eexists.
  - unfold storage_remove, removeItem, try_catch.
    cbv [console_error ret]. by destruct (available ls).
Qed.

Lemma storage_get_swallows ls key d :
  (available ls = false \/
   exists t e, items ls !! key = Some t /\ parse t = Throw e) ->
  storage_get key d ls = (Normal d, ls).
Proof.
  unfold storage_get, getItem, try_catch, lift.
  cbv [mbind M_bind bind mret M_ret ret console_error].
  intros [-> | (t & e & Ht & Hp)]; [done|].
  destruct (available ls); [|done]. rewrite Ht.
  destruct t; [done|]. by rewrite Hp.
Qed.

End StorageFacts.

(** C7, as stated, fails when the store refuses the write: in a store
    without room [storage.set] swallows the [QuotaExceededError] and
    [storage.get] then gives the default, not the value. *)
Lemma storage_full_counterexample :
  representable (Some true) /\
  storage_set (lit "seen") (Some true) full = (Normal tt, full) /\
  storage_get (lit "seen") None (storage_set (lit "seen") (Some true) full).2
  = (Normal None, full) /\
  Normal (None : option bool) <> Normal (Some true).
Proof. split_and!; try reflexivity. discriminate. Qed.

(** C7, amended. For every key and every JSON-representable value [v],
    [storage.get(k, d)] after a [storage.set(k, v)] whose write the store
    accepted gives [v]; with nothing stored under [k], [storage.get(k, d)]
    gives [d]; none of [storage.set], [storage.get], [storage.remove]
    throws; and when the store is blocked or the stored text is not JSON,
    [storage.get] gives [d]. *)
Theorem storage_round_trip {V : Type} `{JSON V} :
  (forall ls key (v d : V),
     representable v -> accepts ls key v ->
     (storage_get key d (storage_set key v ls).2).1 = Normal v) /\
  (forall ls key (d : V),
     items ls !! key = None -> storage_get key d ls = (Normal d, ls)) /\
  (forall ls key (v d : V),
     (storage_set key v ls).1 = Normal tt /\
     (exists x, (storage_get key d ls).1 = Normal x) /\
     (storage_remove key ls).1 = Normal tt) /\
  (forall ls key (d : V),
     (available ls = false \/
      exists t e, items ls !! key = Some t /\ parse t = Throw e) ->
     storage_get key d ls = (Normal d, ls)).
Proof.
  split_and!.
  - apply @storage_set_get.
  - apply @storage_get_absent.
  - apply @storage_never_throws.
  - apply @storage_get_swallows.
Qed.

Lemma storage_round_trip_witness :
  (storage_get (lit "seen") None (storage_set (lit "seen") (Some true) roomy).2).1
  = Normal (Some true).
Proof.
  destruct (@storage_round_trip (option bool) flag_JSON) as (Hrt & _).
  apply Hrt.
  - reflexivity.
  - split; [reflexivity|]. intros o [= <-]. vm_compute. discriminate.
Defined.

End UtilsFacts.

(** ** formatDate: properties *)

Module FormatFacts.
Import Utils.

(** *** Occurrences of a pattern and replacement of the first one *)

Lemma apart_tail p0 p q : apart (p0 :: p) q -> apart p q.
Proof. intros H c Hc. apply H. by right. Qed.

Lemma starts_with_nil_r pat : pat <> [] -> starts_with pat [] = false.
Proof. by destruct pat. Qed.

Lemma starts_with_refl pat b : starts_with pat (pat ++ b) = true.
Proof. induction pat as [|p pat IH]; [done|]. cbn. by rewrite N.eqb_refl. Qed.

Lemma starts_with_app pat u b :
  starts_with pat u = true -> starts_with pat (u ++ b) = true.
Proof.
  revert u. induction pat as [|p pat IH]; intros u; [done|].
  destruct u as [|c u]; [done|]. cbn. intros [-> Hu]%andb_true_iff.
  by rewrite (IH _ Hu).
Qed.

Lemma starts_with_prefix pat u :
  starts_with pat u = true -> u = pat ++ drop (length pat) u.
Proof.
  revert u. induction pat as [|p pat IH]; intros u; [done|].
  destruct u as [|c u]; [done|]. cbn. intros [Hc Hu]%andb_true_iff.
  apply N.eqb_eq in Hc as ->. f_equal. by apply IH.
Qed.

Lemma starts_with_length pat u :
  starts_with pat u = true -> (length pat <= length u)%nat.
Proof.
  intros H%starts_with_prefix. rewrite H, length_app. lia.
Qed.

(** A pattern cannot start in [u] and run into a block it shares no code
    unit with. *)
Lemma starts_with_apart pat u mid b :
  apart pat mid -> mid <> [] ->
  starts_with pat (u ++ mid ++ b) = starts_with pat u.
Proof.
  intros Hap Hmid. revert u Hap.
  induction pat as [|p pat IH]; intros u Hap; [by destruct u|].
  destruct u as [|c u].
  - destruct mid as [|m mid]; [done|]. cbn.
    destruct (N.eqb_spec p m) as [->|]; [|done].
    exfalso. apply (Hap m); by left.
  - cbn. rewrite IH; [done|]. by eapply apart_tail.
Qed.

Lemma starts_with_foreign pat m rest :
  pat <> [] -> m ∉ pat -> starts_with pat (m :: rest) = false.
Proof.
  destruct pat as [|p pat]; [done|]. intros _ Hm. cbn.
  destruct (N.eqb_spec p m) as [->|]; [|done]. exfalso. apply Hm. by left.
Qed.

Lemma apart_not_in pat mid m : apart pat mid -> m ∈ mid -> m ∉ pat.
Proof. intros Hap Hm Hp. by apply (Hap m). Qed.

Lemma occ_skip pat mid b :
  pat <> [] -> apart pat mid -> occ pat (mid ++ b) = occ pat b.
Proof.
  intros Hpat. induction mid as [|m mid IH]; intros Hap; [done|].
  cbn [app occ]. rewrite starts_with_foreign; [|done|].
  - apply IH. intros c Hc Hin. apply (Hap c Hc). by right.
  - eapply apart_not_in; [exact Hap|by left].
Qed.

Lemma occ_app_apart pat a mid b :
  pat <> [] -> apart pat mid -> mid <> [] ->
  occ pat (a ++ mid ++ b) = (occ pat a + occ pat b)%nat.
Proof.
  intros Hpat Hap Hmid. induction a as [|c a IH].
  - cbn [app occ]. by apply occ_skip.
  - cbn [app occ]. rewrite IH.
    pose proof (starts_with_apart pat (c :: a) mid b Hap Hmid) as Hs.
    cbn [app] in Hs. rewrite Hs. lia.
Qed.

Lemma occ_app_ge pat a b : (occ pat a + occ pat b <= occ pat (a ++ b))%nat.
Proof.
  induction a as [|c a IH]; [done|]. cbn [app occ].
  destruct (starts_with pat (c :: a)) eqn:Hs.
  - pose proof (starts_with_app pat (c :: a) b Hs) as Hs'.
    cbn [app] in Hs'. rewrite Hs'. lia.
  - destruct (starts_with pat (c :: a ++ b)); lia.
Qed.

Lemma occ_at pat a b :
  pat <> [] -> (occ pat a + 1 + occ pat b <= occ pat (a ++ pat ++ b))%nat.
Proof.
  intros Hpat. pose proof (occ_app_ge pat a (pat ++ b)) as H1.
  assert (1 + occ pat b <= occ pat (pat ++ b))%nat; [|lia].
  destruct pat as [|p pat]; [done|].
  change ((p :: pat) ++ b) with (p :: (pat ++ b)). cbn [occ].
  change (p :: (pat ++ b)) with ((p :: pat) ++ b).
  rewrite starts_with_refl.
  pose proof (occ_app_ge (p :: pat) pat b). lia.
Qed.

Lemma replace_first_nil pat r : pat <> [] -> replace_first pat r [] = [].
Proof. by destruct pat. Qed.

Lemma replace_first_none pat r s :
  pat <> [] -> occ pat s = 0%nat -> replace_first pat r s = s.
Proof.
  intros Hpat. induction s as [|c s IH]; intros Hocc.
  - by apply replace_first_nil.
  - cbn [occ] in Hocc. cbn [replace_first].
    destruct (starts_with pat (c :: s)); [lia|]. rewrite IH; [done|lia].
Qed.

Lemma replace_first_at pat r a b :
  pat <> [] -> (occ pat (a ++ pat ++ b) <= 1)%nat ->
  replace_first pat r (a ++ pat ++ b) = a ++ r ++ b.
Proof.
  intros Hpat. induction a as [|c a IH]; intros Hocc.
  - cbn [app]. destruct pat as [|p pat]; [done|].
    change ((p :: pat) ++ b) with (p :: (pat ++ b)). cbn [replace_first].
    change (p :: (pat ++ b)) with ((p :: pat) ++ b).
    by rewrite starts_with_refl, drop_app_length.
  - cbn [app occ] in Hocc. cbn [app replace_first].
    pose proof (occ_at pat a b Hpat).
    destruct (starts_with pat (c :: a ++ pat ++ b)); [lia|].
    rewrite IH; [done|lia].
Qed.

(** Either there is no occurrence, or the first one is replaced. *)
Lemma replace_first_split pat r u :
  pat <> [] ->
  (occ pat u = 0%nat /\ replace_first pat r u = u) \/
  (exists p q, u = p ++ pat ++ q /\ replace_first pat r u = p ++ r ++ q).
Proof.
  intros Hpat. induction u as [|c u IH].
  - left. split; [done|]. by apply replace_first_nil.
  - cbn [replace_first occ]. destruct (starts_with pat (c :: u)) eqn:Hs.
    + right. exists [], (drop (length pat) (c :: u)). split; [|done].
      by apply starts_with_prefix.
    + destruct IH as [[H0 Hr]|(p & q & -> & Hr)].
      * left. by rewrite H0, Hr.
      * right. exists (c :: p), q. by rewrite Hr.
Qed.

(** Replacing [pat] by [r] neither makes nor breaks an occurrence of a
    pattern that shares no code unit with them. *)
Lemma occ_replace_first x pat r u :
  x <> [] -> pat <> [] -> r <> [] -> apart x pat -> apart x r ->
  occ x (replace_first pat r u) = occ x u.
Proof.
  intros Hx Hpat Hr Hxp Hxr.
  destruct (replace_first_split pat r u Hpat) as [[_ ->]|(p & q & -> & ->)];
    [done|].
  by rewrite !occ_app_apart.
Qed.

Lemma replace_first_skip pat r mid b :
  pat <> [] -> apart pat mid ->
  replace_first pat r (mid ++ b) = mid ++ replace_first pat r b.
Proof.
  intros Hpat. induction mid as [|m mid IH]; intros Hap; [done|].
  cbn [app replace_first]. rewrite starts_with_foreign; [|done|].
  - rewrite IH; [done|]. intros c Hc Hin. apply (Hap c Hc). by right.
  - eapply apart_not_in; [exact Hap|by left].
Qed.

(** With at most one occurrence, replacing around a foreign block is
    replacing on each side of it. *)
Lemma replace_first_around pat r a mid b :
  pat <> [] -> apart pat mid -> mid <> [] ->
  (occ pat (a ++ mid ++ b) <= 1)%nat ->
  replace_first pat r (a ++ mid ++ b)
  = replace_first pat r a ++ mid ++ replace_first pat r b.
Proof.
  intros Hpat Hap Hmid. induction a as [|c a IH]; intros Hocc.
  - rewrite replace_first_nil by done. cbn [app]. by apply replace_first_skip.
  - rewrite occ_app_apart in Hocc by done.
    change ((c :: a) ++ mid ++ b) with (c :: (a ++ mid ++ b)).
    cbn [replace_first].
    change (c :: (a ++ mid ++ b)) with ((c :: a) ++ mid ++ b).
    rewrite (starts_with_apart pat (c :: a) mid b Hap Hmid).
    cbn [occ] in Hocc.
    destruct (starts_with pat (c :: a)) eqn:Hs.
    + rewrite (replace_first_none pat r b) by (done || lia).
      rewrite drop_app_le by by apply starts_with_length.
      by rewrite <- app_assoc.
    + cbn [app]. rewrite IH; [done|]. rewrite occ_app_apart by done. lia.
Qed.


(** *** A sequence of replacements *)

Lemma subst_seq_cons e T s :
  subst_seq (e :: T) s = subst_seq T (replace_first e.1 e.2 s).
Proof. reflexivity. Qed.

Lemma subst_seq_app T1 T2 s :
  subst_seq (T1 ++ T2) s = subst_seq T2 (subst_seq T1 s).
Proof. apply foldl_app. Qed.

Lemma subst_seq_none T s :
  (forall e, e ∈ T -> e.1 <> [] /\ occ e.1 s = 0%nat) -> subst_seq T s = s.
Proof.
  induction T as [|e T IH]; intros H; [done|].
  rewrite subst_seq_cons. destruct (H e) as [He H0]; [by left|].
  rewrite replace_first_none by done. apply IH. intros e' He'. apply H. by right.
Qed.

Lemma occ_subst_seq T x s :
  x <> [] ->
  (forall e, e ∈ T -> e.1 <> [] /\ e.2 <> [] /\ apart x e.1 /\ apart x e.2) ->
  occ x (subst_seq T s) = occ x s.
Proof.
  intros Hx. revert s. induction T as [|e T IH]; intros s H; [done|].
  rewrite subst_seq_cons. destruct (H e) as (? & ? & ? & ?); [by left|].
  rewrite IH; [by apply occ_replace_first|]. intros e' He'. apply H. by right.
Qed.

Lemma subst_seq_around T a mid b :
  mid <> [] -> NoDup T.*1 ->
  (forall e, e ∈ T ->
     e.1 <> [] /\ e.2 <> [] /\ apart e.1 mid /\
     (occ e.1 (a ++ mid ++ b) <= 1)%nat /\
     forall e', e' ∈ T -> apart e.1 e'.2 /\ (e.1 <> e'.1 -> apart e.1 e'.1)) ->
  subst_seq T (a ++ mid ++ b) = subst_seq T a ++ mid ++ subst_seq T b.
Proof.
  intros Hmid. revert a b. induction T as [|e T IH]; intros a b Hnd H; [done|].
  cbn [fmap list_fmap] in Hnd. apply NoDup_cons in Hnd as [Hfresh Hnd].
  rewrite !subst_seq_cons.
  destruct (H e) as (He1 & He2 & Hemid & Heocc & _); [by left|].
  rewrite replace_first_around by done.
  apply IH; [done|]. intros e' He'.
  destruct (H e') as (He'1 & He'2 & He'mid & He'occ & He'T); [by right|].
  split_and!; try done.
  - destruct (He'T e) as [Hr Hp]; [by left|].
    assert (Hne : e'.1 <> e.1).
    { intros Heq. apply Hfresh. rewrite <- Heq. by apply list_elem_of_fmap_2. }
    rewrite occ_app_apart by done.
    rewrite !occ_replace_first by auto.
    by rewrite <- (occ_app_apart e'.1 a mid b).
  - intros e'' He''. apply He'T. by right.
Qed.

(** The replacements of a table around the one occurrence of one of its
    patterns: the pattern gives way to its replacement, and each side is
    treated on its own. *)
Lemma subst_seq_token T tok rep a b :
  table_ok T -> (tok, rep) ∈ T ->
  (forall e, e ∈ T -> (occ e.1 (a ++ tok ++ b) <= 1)%nat) ->
  subst_seq T (a ++ tok ++ b) = subst_seq T a ++ rep ++ subst_seq T b.
Proof.
  intros [Hnd Hok] Hin Hocc.
  destruct (Hok _ Hin) as (Htok & Hrep & Hself). cbn [fst snd] in *.
  apply list_elem_of_split in Hin as (pre & post & ->).
  rewrite fmap_app, fmap_cons in Hnd. cbn [fst] in Hnd.
  apply NoDup_app in Hnd as (Hnd_pre & Hpre_post & Hnd_post).
  apply NoDup_cons in Hnd_post as [Hfresh_post Hnd_post].
  assert (Hin_pre : forall e, e ∈ pre -> e ∈ pre ++ (tok, rep) :: post).
  { intros e He. apply elem_of_app. by left. }
  assert (Hin_post : forall e, e ∈ post -> e ∈ pre ++ (tok, rep) :: post).
  { intros e He. apply elem_of_app. right. by right. }
  assert (Hin_tok : (tok, rep) ∈ pre ++ (tok, rep) :: post).
  { apply elem_of_app. right. by left. }
  assert (Hne_pre : forall e, e ∈ pre -> e.1 <> tok).
  { intros e He Heq. apply (Hpre_post tok); [|by left].
    rewrite <- Heq. by apply list_elem_of_fmap_2. }
  assert (Hne_post : forall e, e ∈ post -> e.1 <> tok).
  { intros e He Heq. apply Hfresh_post. rewrite <- Heq.
    by apply list_elem_of_fmap_2. }
  (* the sides hold no occurrence of the token *)
  pose proof (occ_at tok a b Htok) as Hat.
  pose proof (Hocc _ Hin_tok) as Hone. cbn [fst] in Hone.
  assert (Hpre_keeps : forall s, occ tok (subst_seq pre s) = occ tok s).
  { intros s. apply occ_subst_seq; [done|]. intros e He.
    destruct (Hok e (Hin_pre e He)) as (? & ? & _).
    destruct (Hself e (Hin_pre e He)) as [? Hp].
    split_and!; try done. apply Hp. intros Heq. by apply (Hne_pre e He). }
  (* the patterns before the token *)
  assert (Hstep1 : subst_seq pre (a ++ tok ++ b)
                   = subst_seq pre a ++ tok ++ subst_seq pre b).
  { apply subst_seq_around; [done|done|]. intros e He.
    destruct (Hok e (Hin_pre e He)) as (? & ? & HeT).
    destruct (HeT _ Hin_tok) as [_ Hp]. cbn [fst] in Hp.
    split_and!; try done.
    - apply Hp. by apply Hne_pre.
    - by apply Hocc, Hin_pre.
    - intros e' He'. by apply HeT, Hin_pre. }
  (* the token itself *)
  assert (Hstep2 : replace_first tok rep (subst_seq pre a ++ tok ++ subst_seq pre b)
                   = subst_seq pre a ++ rep ++ subst_seq pre b).
  { apply replace_first_at; [done|]. rewrite <- Hstep1, Hpre_keeps. done. }
  (* the patterns after the token *)
  assert (Hstep3 : subst_seq post (subst_seq pre a ++ rep ++ subst_seq pre b)
                   = subst_seq post (subst_seq pre a) ++ rep
                     ++ subst_seq post (subst_seq pre b)).
  { apply subst_seq_around; [done|done|]. intros e He.
    destruct (Hok e (Hin_post e He)) as (He1 & He2 & HeT).
    destruct (HeT _ Hin_tok) as [Hr Hp]. cbn [fst snd] in Hr, Hp.
    specialize (Hp (Hne_post e He)).
    split_and!; try done.
    - rewrite occ_app_apart by done.
      assert (Hkeep : forall s, occ e.1 (subst_seq pre s) = occ e.1 s).
      { intros s. apply occ_subst_seq; [done|]. intros e' He'.
        destruct (Hok e' (Hin_pre e' He')) as (? & ? & _).
        destruct (HeT e' (Hin_pre e' He')) as [? Hp'].
        split_and!; try done. apply Hp'. intros Heq.
        apply (Hpre_post e.1); [rewrite Heq; by apply list_elem_of_fmap_2|].
        right. by apply list_elem_of_fmap_2. }
      rewrite !Hkeep. rewrite <- (occ_app_apart e.1 a tok b) by done.
      by apply Hocc, Hin_post.
    - intros e' He'. by apply HeT, Hin_post. }
  rewrite !subst_seq_app, !subst_seq_cons. cbn [fst snd].
  rewrite Hstep1, Hstep2, Hstep3.
  rewrite (replace_first_none tok rep (subst_seq pre a))
    by (done || rewrite Hpre_keeps; lia).
  rewrite (replace_first_none tok rep (subst_seq pre b))
    by (done || rewrite Hpre_keeps; lia).
  done.
Qed.


(** *** The tokens of a date format *)

Lemma formatDate_subst_seq d fmt :
  formatDate d (Some fmt) = subst_seq (date_table d) fmt.
Proof. reflexivity. Qed.

(** The numerals hold digits and the sign only, and are not empty. *)
Lemma uint_units_digits u : Forall numeral_unit (uint_units u).
Proof. induction u; constructor; try done; by left. Qed.

Lemma String_of_Z_units z : Forall numeral_unit (String_of_Z z).
Proof.
  unfold String_of_Z. destruct (Z.to_int z).
  - apply uint_units_digits.
  - constructor; [by right|apply uint_units_digits].
Qed.

Lemma uint_units_nonnil u : u <> Decimal.Nil -> uint_units u <> [].
Proof. by destruct u. Qed.

Lemma String_of_Z_nonnil z : String_of_Z z <> [].
Proof.
  unfold String_of_Z. destruct z as [|p|p]; cbn [Z.to_int]; try done.
  apply uint_units_nonnil, DecimalPos.Unsigned.to_uint_nonnil.
Qed.

Lemma two_digits_units z : Forall numeral_unit (two_digits z).
Proof.
  unfold two_digits, padStart. apply Forall_app. split.
  - apply Forall_replicate. by left.
  - apply String_of_Z_units.
Qed.

Lemma two_digits_nonnil z : two_digits z <> [].
Proof.
  unfold two_digits, padStart. pose proof (String_of_Z_nonnil z).
  destruct (String_of_Z z); [done|]. by destruct (replicate _ _).
Qed.

Lemma token_value_units d t : Forall numeral_unit (token_value d t).
Proof. destruct t; apply String_of_Z_units || apply two_digits_units. Qed.

Lemma token_value_nonnil d t : token_value d t <> [].
Proof. destruct t; apply String_of_Z_nonnil || apply two_digits_nonnil. Qed.

Lemma token_text_nonnil t : token_text t <> [].
Proof. by destruct t. Qed.

Lemma token_text_inj t t' : token_text t = token_text t' -> t = t'.
Proof. by destruct t, t'. Qed.

(** A token is made of one letter, which is no digit and no sign. *)
Lemma token_apart_value d t t' : apart (token_text t) (token_value d t').
Proof.
  intros c Hc Hin.
  pose proof (token_value_units d t') as Hunits.
  rewrite Forall_forall in Hunits. specialize (Hunits c Hin).
  apply list_elem_of_In in Hc.
  destruct t; vm_compute in Hc;
    repeat (destruct Hc as [<-|Hc]; [by destruct Hunits|]); done.
Qed.

Lemma token_apart_token t t' : t <> t' -> apart (token_text t) (token_text t').
Proof.
  intros Hne c Hc%list_elem_of_In Hin%list_elem_of_In.
  destruct t, t'; try done; vm_compute in Hc, Hin;
    repeat (destruct Hc as [<-|Hc]; [|]); try done;
    repeat (destruct Hin as [Hin|Hin]; [done|]); done.
Qed.

Lemma elem_of_date_table d e :
  e ∈ date_table d <-> exists t, e = (token_text t, token_value d t).
Proof.
  unfold date_table. rewrite list_elem_of_fmap. split.
  - intros (t & -> & _). by exists t.
  - intros (t & ->). exists t. split; [done|].
    apply list_elem_of_In. destruct t; cbn; tauto.
Qed.

Lemma date_table_ok d : table_ok (date_table d).
Proof.
  split.
  - apply (bool_decide_unpack _). by vm_compute.
  - intros e (t & ->)%elem_of_date_table. cbn [fst snd]. split_and!.
    + apply token_text_nonnil.
    + apply token_value_nonnil.
    + intros e' (t' & ->)%elem_of_date_table. cbn [fst snd]. split.
      * apply token_apart_value.
      * intros Hne. apply token_apart_token. congruence.
Qed.


(** *** Templates *)

Lemma pattern_text_cons p tpl :
  pattern_text (p :: tpl) = piece_pattern p ++ pattern_text tpl.
Proof. reflexivity. Qed.

Lemma pattern_text_app l1 l2 :
  pattern_text (l1 ++ l2) = pattern_text l1 ++ pattern_text l2.
Proof. unfold pattern_text. by rewrite fmap_app, concat_app. Qed.

Lemma rendered_cons d p tpl :
  rendered d (p :: tpl) = piece_value d p ++ rendered d tpl.
Proof. reflexivity. Qed.

Lemma rendered_app d l1 l2 :
  rendered d (l1 ++ l2) = rendered d l1 ++ rendered d l2.
Proof. unfold rendered. by rewrite fmap_app, concat_app. Qed.

Lemma count_tok_cons t p tpl :
  count_tok t (p :: tpl)
  = ((if decide (p = Tok t) then 1 else 0) + count_tok t tpl)%nat.
Proof. unfold count_tok. rewrite filter_cons. by destruct (decide _). Qed.

Lemma count_tok_app t l1 l2 :
  count_tok t (l1 ++ l2) = (count_tok t l1 + count_tok t l2)%nat.
Proof. unfold count_tok. by rewrite filter_app, length_app. Qed.

Lemma texts_count t texts : Forall is_text texts -> count_tok t texts = 0%nat.
Proof.
  induction 1 as [|p texts Hp _ IH]; [done|].
  rewrite count_tok_cons, IH. by destruct p, (decide _).
Qed.

Lemma texts_rendered d texts :
  Forall is_text texts -> rendered d texts = pattern_text texts.
Proof.
  induction 1 as [|p texts Hp _ IH]; [done|].
  rewrite rendered_cons, pattern_text_cons, IH. by destruct p.
Qed.

Lemma first_token tpl :
  Forall is_text tpl \/
  exists texts t rest, tpl = texts ++ Tok t :: rest /\ Forall is_text texts.
Proof.
  induction tpl as [|p tpl IH]; [by left|].
  destruct p as [s|t].
  - destruct IH as [Hall|(texts & t & rest & -> & Htexts)].
    + left. by constructor.
    + right. exists (Text s :: texts), t, rest. split; [done|]. by constructor.
  - right. exists [], t, tpl. split; [done|]. constructor.
Qed.

(** Every token of a template occurs in its format. *)
Lemma occ_ge_count t tpl :
  (count_tok t tpl <= occ (token_text t) (pattern_text tpl))%nat.
Proof.
  induction tpl as [|p tpl IH]; [done|].
  rewrite count_tok_cons, pattern_text_cons.
  destruct (decide (p = Tok t)) as [->|Hne].
  - pose proof (occ_at (token_text t) [] (pattern_text tpl) (token_text_nonnil t)).
    cbn [app occ piece_pattern] in *. lia.
  - pose proof (occ_app_ge (token_text t) (piece_pattern p) (pattern_text tpl)).
    lia.
Qed.

(** Cutting a faithful template at its first token: the text before it
    holds no token, and the rest is faithful. *)
Lemma faithful_cut texts t rest :
  Forall is_text texts -> faithful (texts ++ Tok t :: rest) ->
  (forall x, occ (token_text x) (pattern_text texts) = 0%nat) /\
  faithful rest /\
  (forall x, (occ (token_text x)
                (pattern_text texts ++ token_text t ++ pattern_text rest) <= 1)%nat).
Proof.
  intros Htexts Hf.
  assert (Hx : forall x,
            occ (token_text x) (pattern_text texts) = 0%nat /\
            occ (token_text x) (pattern_text rest) = count_tok x rest /\
            (count_tok x rest <= 1)%nat /\
            (occ (token_text x)
               (pattern_text texts ++ token_text t ++ pattern_text rest) <= 1)%nat).
  { intros x. destruct (Hf x) as [Hocc Hle].
    rewrite pattern_text_app, pattern_text_cons in Hocc. cbn [piece_pattern] in Hocc.
    rewrite count_tok_app, count_tok_cons, (texts_count x texts Htexts) in Hocc, Hle.
    pose proof (occ_ge_count x rest) as Hge.
    destruct (decide (Tok t = Tok x)) as [[= ->]|Hne].
    - pose proof (occ_at (token_text x) (pattern_text texts) (pattern_text rest)
                    (token_text_nonnil x)). lia.
    - assert (Heq : occ (token_text x)
                      (pattern_text texts ++ token_text t ++ pattern_text rest)
                    = (occ (token_text x) (pattern_text texts)
                       + occ (token_text x) (pattern_text rest))%nat).
      { apply occ_app_apart;
          [apply token_text_nonnil|apply token_apart_token; congruence
          |apply token_text_nonnil]. }
      rewrite Heq in *. lia. }
  split_and!; intros x; destruct (Hx x) as (? & ? & ? & ?); done.
Qed.

(** On a faithful template, the chain of replacements puts the value of
    every token in its place and keeps the text. *)
Lemma subst_seq_template d tpl :
  faithful tpl -> subst_seq (date_table d) (pattern_text tpl) = rendered d tpl.
Proof.
  remember (length tpl) as n eqn:Hn. revert tpl Hn.
  induction n as [n IH] using lt_wf_ind. intros tpl -> Hf.
  destruct (first_token tpl) as [Hall|(texts & t & rest & -> & Htexts)].
  - rewrite (texts_rendered d tpl Hall). apply subst_seq_none.
    intros e (x & ->)%elem_of_date_table. cbn [fst].
    split; [apply token_text_nonnil|].
    destruct (Hf x) as [-> _]. by apply texts_count.
  - destruct (faithful_cut texts t rest Htexts Hf) as (Hfree & Hrest & Hone).
    rewrite pattern_text_app, pattern_text_cons, rendered_app, rendered_cons.
    cbn [piece_pattern piece_value].
    rewrite (subst_seq_token (date_table d) (token_text t) (token_value d t)).
    + rewrite (texts_rendered d texts Htexts). f_equal; [|f_equal].
      * apply subst_seq_none. intros e (x & ->)%elem_of_date_table. cbn [fst].
        split; [apply token_text_nonnil|apply Hfree].
      * eapply IH; [|reflexivity|done]. rewrite length_app. cbn. lia.
    + apply date_table_ok.
    + apply elem_of_date_table. by exists t.
    + intros e (x & ->)%elem_of_date_table. apply Hone.
Qed.

(** An occurrence can be cut out. *)
Lemma occ_pos_split pat s :
  (1 <= occ pat s)%nat -> exists a b, s = a ++ pat ++ b.
Proof.
  induction s as [|c s IH]; cbn [occ]; [lia|]. intros H.
  destruct (starts_with pat (c :: s)) eqn:Hs.
  - exists [], (drop (length pat) (c :: s)). by apply starts_with_prefix.
  - destruct IH as (a & b & ->); [lia|]. by exists (c :: a), b.
Qed.

(** Every format in which no token occurs twice has a faithful
    template. *)
Lemma faithful_template_exists fmt :
  (forall t, (occ (token_text t) fmt <= 1)%nat) ->
  exists tpl, faithful tpl /\ pattern_text tpl = fmt.
Proof.
  remember (length fmt) as n eqn:Hn. revert fmt Hn.
  induction n as [n IH] using lt_wf_ind. intros fmt -> Hle.
  destruct (decide (Forall (fun t => occ (token_text t) fmt = 0%nat) tokens))
    as [Hnone|Hsome].
  - exists [Text fmt]. split.
    + intros t. assert (Hc : count_tok t [Text fmt] = 0%nat) by reflexivity.
      rewrite Hc. split; [|lia].
      unfold pattern_text. cbn. rewrite app_nil_r.
      rewrite Forall_forall in Hnone. apply Hnone.
      apply list_elem_of_In. destruct t; cbn; tauto.
    + unfold pattern_text. cbn. by rewrite app_nil_r.
  - apply not_Forall_Exists in Hsome; [|intros t; apply _].
    apply Exists_exists in Hsome as (t & _ & Ht). unfold compose in Ht.
    destruct (occ_pos_split (token_text t) fmt) as (a & b & ->); [lia|].
    pose proof (token_text_nonnil t) as Htok.
    assert (Hlen : (0 < length (token_text t))%nat) by (destruct t; cbn; lia).
    assert (Hsides : forall x,
              (occ (token_text x) a + occ (token_text x) b
               <= occ (token_text x) (a ++ token_text t ++ b))%nat).
    { intros x.
      pose proof (occ_app_ge (token_text x) a (token_text t ++ b)).
      pose proof (occ_app_ge (token_text x) (token_text t) b). lia. }
    destruct (IH (length a)) with (fmt := a) as (tpl_a & Hfa & <-).
    { rewrite !length_app. lia. } { done. }
    { intros x. specialize (Hsides x). specialize (Hle x). lia. }
    destruct (IH (length b)) with (fmt := b) as (tpl_b & Hfb & <-).
    { rewrite !length_app. lia. } { done. }
    { intros x. specialize (Hsides x). specialize (Hle x). lia. }
    exists (tpl_a ++ Tok t :: tpl_b). split.
    + intros x. rewrite pattern_text_app, pattern_text_cons.
      cbn [piece_pattern]. rewrite count_tok_app, count_tok_cons.
      destruct (Hfa x) as [Ha _], (Hfb x) as [Hb _]. specialize (Hle x).
      destruct (decide (Tok t = Tok x)) as [[= ->]|Hne].
      * pose proof (occ_at (token_text x) (pattern_text tpl_a) (pattern_text tpl_b)
                      Htok). lia.
      * assert (Heq : occ (token_text x)
                        (pattern_text tpl_a ++ token_text t ++ pattern_text tpl_b)
                      = (occ (token_text x) (pattern_text tpl_a)
                         + occ (token_text x) (pattern_text tpl_b))%nat).
        { apply occ_app_apart;
            [apply token_text_nonnil|apply token_apart_token; congruence
            |apply token_text_nonnil]. }
        rewrite Heq in *. lia.
    + by rewrite pattern_text_app, pattern_text_cons.
Qed.


(** *** The values of the tokens *)

Lemma Z_below_forall (P : Z -> bool) (n : Z) :
  forallb P (Z.of_nat <$> seq 0 (Z.to_nat n)) = true ->
  forall z, 0 <= z < n -> P z = true.
Proof.
  intros H z Hz. rewrite forallb_forall in H. apply H.
  apply list_elem_of_In, list_elem_of_fmap. exists (Z.to_nat z).
  split; [lia|]. apply list_elem_of_In, in_seq. lia.
Qed.

Lemma two_digits_pad2 z : 0 <= z <= 99 -> two_digits z = pad2 z.
Proof.
  intros Hz.
  assert (Hall : forallb (fun z => bool_decide (two_digits z = pad2 z))
                   (Z.of_nat <$> seq 0 (Z.to_nat 100)) = true) by by vm_compute.
  pose proof (Z_below_forall _ _ Hall z ltac:(lia)) as H. cbv beta in H.
  by apply bool_decide_eq_true_1 in H.
Qed.

Lemma four_digit_year y :
  1000 <= y <= 9999 ->
  length (String_of_Z y) = 4%nat /\ forallb is_digit (String_of_Z y) = true.
Proof.
  intros Hy.
  assert (Hall : forallb
            (fun i => bool_decide
                        (length (String_of_Z (1000 + i)) = 4%nat /\
                         forallb is_digit (String_of_Z (1000 + i)) = true))
            (Z.of_nat <$> seq 0 (Z.to_nat 9000)) = true) by by vm_compute.
  pose proof (Z_below_forall _ _ Hall (y - 1000) ltac:(lia)) as H.
  cbv beta in H. apply bool_decide_eq_true_1 in H.
  by replace (1000 + (y - 1000)) with y in H by lia.
Qed.

Lemma default_template_faithful : faithful default_template.
Proof. intros t. destruct t; split; vm_compute; first [done|repeat constructor]. Qed.

Lemma long_template_faithful : faithful long_template.
Proof. intros t. destruct t; split; vm_compute; first [done|repeat constructor]. Qed.

(** C6, as stated, fails on a valid date before the year 1000: [YYYY] is
    replaced by the year as [String] prints it, here with three digits. *)
Lemma formatDate_short_year_counterexample :
  valid_date year_999 /\
  (forall t, (occ (token_text t) (lit "YYYY-MM-DD") <= 1)%nat) /\
  formatDate year_999 (Some (lit "YYYY-MM-DD")) = lit "999-01-06" /\
  length (lit "999") = 3%nat.
Proof.
  split_and!; try reflexivity.
  - unfold valid_date, year_999; cbn; lia.
  - intros t. destruct t; vm_compute; lia.
Qed.

(** C6, amended. For every valid date and every format in which each of
    the tokens [YYYY], [MM], [DD], [HH], [mm] occurs at most once (the
    default [YYYY-MM-DD] is one), [formatDate] gives the format with
    [YYYY] replaced by the year in decimal, which has four digits for the
    years 1000 to 9999, [MM] by the two-digit zero-padded month, [DD] by
    the two-digit zero-padded day, [HH] by the two-digit zero-padded hour
    and [mm] by the two-digit zero-padded minute, the text between the
    tokens kept as it is. *)
Theorem formatDate_replaces_tokens d :
  valid_date d ->
  (forall fmt,
     (forall t, (occ (token_text t) fmt <= 1)%nat) ->
     exists tpl,
       faithful tpl /\ pattern_text tpl = fmt /\
       formatDate d (Some fmt) = rendered d tpl) /\
  (forall tpl,
     faithful tpl -> formatDate d (Some (pattern_text tpl)) = rendered d tpl) /\
  formatDate d None
  = token_value d YYYY ++ lit "-" ++ token_value d MM ++ lit "-"
    ++ token_value d DD /\
  token_value d YYYY = String_of_Z (getFullYear d) /\
  (1000 <= getFullYear d <= 9999 ->
   length (token_value d YYYY) = 4%nat /\
   forallb is_digit (token_value d YYYY) = true) /\
  token_value d MM = pad2 (getMonth d + 1) /\
  token_value d DD = pad2 (getDate d) /\
  token_value d HH = pad2 (getHours d) /\
  token_value d mm = pad2 (getMinutes d).
Proof.
  intros (Hy & Hmo & Hd & Hh & Hmi). split_and!.
  - intros fmt Hle.
    destruct (faithful_template_exists fmt Hle) as (tpl & Hf & <-).
    exists tpl. split_and!; try done.
    rewrite formatDate_subst_seq. by apply subst_seq_template.
  - intros tpl Hf. rewrite formatDate_subst_seq. by apply subst_seq_template.
  - change (formatDate d None)
      with (subst_seq (date_table d) (pattern_text default_template)).
    rewrite (subst_seq_template d _ default_template_faithful).
    unfold rendered. cbn. by rewrite app_nil_r.
  - done.
  - apply four_digit_year.
  - apply two_digits_pad2. lia.
  - apply two_digits_pad2. lia.
  - apply two_digits_pad2. lia.
  - apply two_digits_pad2. lia.
Qed.

Lemma formatDate_replaces_tokens_witness :
  formatDate epiphany (Some (lit "YYYY/MM/DD HH:mm")) = lit "2024/01/06 09:05".
Proof.
  assert (Hvalid : valid_date epiphany)
    by (unfold valid_date, epiphany; cbn; lia).
  destruct (formatDate_replaces_tokens epiphany Hvalid) as (_ & H & _).
  exact (H long_template long_template_faithful).
Defined.

End FormatFacts.

(** ** debounce and throttle: properties *)

Module TimersFacts.
Import Timers.

(** An invariant of the steps holds after a run. *)
Lemma run_invariant {S E} (step : S -> E -> option S) (Inv : S -> Prop) :
  (forall s e s', Inv s -> step s e = Some s' -> Inv s') ->
  forall evs s s', Inv s -> run step s evs = Some s' -> Inv s'.
Proof.
  intros Hstep evs. induction evs as [|e evs IH]; intros s s' Hs Hrun.
  - by injection Hrun as <-.
  - cbn [run] in Hrun. destruct (step s e) as [s1|] eqn:He; [|done].
    eapply IH; [|exact Hrun]. eauto.
Qed.

Section Traces.
Context {A : Type}.
Implicit Types (trace : list (obs A)) (o : obs A).

Lemma quiet_spaced w trace : quiet w trace -> spaced w trace.
Proof.
  induction trace as [|o older IH]; [done|]. intros [Ho Hq].
  split; [|by apply IH]. destruct (is_invoked o); [|done].
  eapply Forall_impl; [exact Ho|]. auto.
Qed.

Lemma invocations_in_cons x w o trace :
  invocations_in x w (o :: trace)
  = ((if bool_decide (is_invoked o = true /\ (x <= obs_time o < x + w)%Z)
      then 1 else 0) + invocations_in x w trace)%nat.
Proof.
  unfold invocations_in. rewrite filter_cons.
  case_bool_decide; by rewrite decide_bool_decide, ?bool_decide_eq_true_2,
    ?bool_decide_eq_false_2 by done.
Qed.

Lemma invocations_in_before x w t trace :
  Forall (fun o' => is_invoked o' = true -> obs_time o' + w <= t) trace ->
  t < x + w ->
  invocations_in x w trace = 0%nat.
Proof.
  intros Hall Ht. induction Hall as [|o older Ho _ IH]; [done|].
  rewrite invocations_in_cons, IH. rewrite bool_decide_eq_false_2; [done|].
  intros [Hi Hx]. specialize (Ho Hi). lia.
Qed.

(** At most one invocation in any window of length [w]. *)
Lemma spaced_once_per_window w trace :
  spaced w trace -> forall x, (invocations_in x w trace <= 1)%nat.
Proof.
  intros Hs x. induction trace as [|o older IH]; [cbn; lia|].
  destruct Hs as [Ho Hs]. rewrite invocations_in_cons.
  case_bool_decide as Hin.
  - destruct Hin as [Hi Hx]. rewrite Hi in Ho.
    rewrite (invocations_in_before x w (obs_time o)); [lia|done|lia].
  - specialize (IH Hs). lia.
Qed.

End Traces.


Section Invariants.
Context {A : Type}.

(** *** debounce *)

Lemma debounce_inv_initial wait : debounce_inv (A := A) wait debounce.
Proof. split_and!; [constructor| |done]. intros ??? H. cbn in H. by rewrite lookup_empty in H. Qed.

Lemma debounce_inv_step wait (s : debounced (A := A)) e s' :
  debounce_inv wait s -> debounce_step wait s e = Some s' -> debounce_inv wait s'.
Proof.
  intros (Hclock & Hpend & Hquiet) Hstep. destruct e as [t args|t id]; cbn in Hstep.
  - destruct (Z.leb_spec (d_clock s) t) as [Ht|]; [|done]. injection Hstep as <-.
    assert (Hempty : pending (clearTimeout (timeout s) (d_timers s)) = ∅).
    { apply map_eq. intros i. rewrite lookup_empty.
      destruct (pending (clearTimeout (timeout s) (d_timers s)) !! i) as [[due a]|] eqn:Hi; [|done].
      exfalso. destruct (timeout s) as [j|] eqn:Hj; cbn in Hi.
      - destruct (decide (j = i)) as [->|Hne].
        + by rewrite lookup_delete_eq in Hi.
        + rewrite lookup_delete_ne in Hi by done.
          destruct (Hpend _ _ _ Hi) as [Heq _]. congruence.
      - destruct (Hpend _ _ _ Hi) as [Heq _]. congruence. }
    unfold debounce_inv, executedFunction, setTimeout.
    set (tbl := clearTimeout (timeout s) (d_timers s)) in *.
    cbn [timeout d_timers d_clock d_trace pending next_id].
    rewrite Hempty. split; [|split].
    + constructor; [cbn; lia|]. eapply Forall_impl; [exact Hclock|]. cbn. lia.
    + intros i due a.
      destruct (decide (next_id tbl = i)) as [<-|Hne].
      * rewrite lookup_insert_eq. intros [= <- <-]. split; [done|].
        constructor; [cbn; lia|]. eapply Forall_impl; [exact Hclock|]. cbn. lia.
      * rewrite lookup_insert_ne, lookup_empty by done. done.
    + split; done.
  - destruct (pending (d_timers s) !! id) as [[due args]|] eqn:Hid; [|done].
    destruct (Z.leb_spec (d_clock s) t) as [Ht|]; [|done].
    destruct (Z.leb_spec due t) as [Hdue|]; [|done].
    cbn in Hstep. injection Hstep as <-.
    destruct (Hpend _ _ _ Hid) as [Hto Hbefore].
    unfold debounce_inv, later. rewrite Hto.
    cbn [timeout d_timers d_clock d_trace pending next_id clearTimeout].
    split; [|split].
    + constructor; [cbn; lia|]. eapply Forall_impl; [exact Hclock|]. cbn. lia.
    + intros i due' a Hi. exfalso.
      destruct (decide (id = i)) as [->|Hne].
      * by rewrite lookup_delete_eq in Hi.
      * rewrite !lookup_delete_ne in Hi by done.
        destruct (Hpend _ _ _ Hi) as [Heq _]. congruence.
    + split; [|done]. cbn [is_invoked obs_time].
      eapply Forall_impl; [exact Hbefore|]. cbn. lia.
Qed.

(** *** throttle *)

Variable func : A -> completion unit.

Lemma throttle_inv_initial limit : throttle_inv (A := A) limit throttle.
Proof. unfold throttle_inv, invoked_before. cbn. split_and!; done || constructor. Qed.

Lemma throttle_inv_step limit (s : throttled (A := A)) e s' :
  (forall a, exists u, func a = Normal u) ->
  throttle_inv limit s -> throttle_step func limit s e = Some s' ->
  throttle_inv limit s'.
Proof.
  intros Hret (Hclock & Hspaced & Hmode) Hstep.
  destruct e as [t args|t id]; cbn in Hstep.
  - destruct (Z.leb_spec (t_clock s) t) as [Ht|]; [|done]. injection Hstep as <-.
    unfold throttle_inv, throttled_call. destruct (inThrottle s) eqn:Hin.
    + cbn [inThrottle t_timers t_clock t_trace].
      destruct Hmode as [Hdue Huniq]. split; [|split; [|split]].
      * constructor; [cbn; lia|]. eapply Forall_impl; [exact Hclock|]. cbn. lia.
      * split; done.
      * intros id due cb Hid. constructor; [done|]. by eapply Hdue.
      * done.
    + destruct (Hret args) as [u ->]. destruct Hmode as [Hempty Hold].
      unfold setTimeout.
      cbn [inThrottle t_timers t_clock t_trace pending next_id].
      rewrite Hempty. split; [|split; [|split]].
      * constructor; [cbn; lia|]. constructor; [cbn; lia|].
        eapply Forall_impl; [exact Hclock|]. cbn. lia.
      * split; [|split; done]. cbn [is_invoked obs_time].
        constructor; [done|]. eapply Forall_impl; [exact Hold|]. cbn.
        intros o Ho Hi. specialize (Ho Hi). lia.
      * intros id due cb.
        destruct (decide (next_id (t_timers s) = id)) as [<-|Hne].
        -- rewrite lookup_insert_eq. intros [= <- <-].
           constructor; [cbn; lia|]. constructor; [done|].
           eapply Forall_impl; [exact Hold|]. cbn.
           intros o Ho Hi. specialize (Ho Hi). lia.
        -- by rewrite lookup_insert_ne, lookup_empty.
      * intros id id' [x Hx] [y Hy].
        destruct (decide (next_id (t_timers s) = id)) as [<-|Hne];
          [|by rewrite lookup_insert_ne, lookup_empty in Hx].
        destruct (decide (next_id (t_timers s) = id')) as [<-|Hne'];
          [done|by rewrite lookup_insert_ne, lookup_empty in Hy].
  - destruct (pending (t_timers s) !! id) as [[due cb]|] eqn:Hid; [|done].
    destruct (Z.leb_spec (t_clock s) t) as [Ht|]; [|done].
    destruct (Z.leb_spec due t) as [Hdue|]; [|done].
    cbn in Hstep. injection Hstep as <-. unfold throttle_inv.
    cbn [inThrottle t_timers t_clock t_trace pending next_id].
    destruct (inThrottle s).
    + destruct Hmode as [Hbefore Huniq]. split; [|split; [|split]].
      * eapply Forall_impl; [exact Hclock|]. cbn. lia.
      * done.
      * apply map_eq. intros i. rewrite lookup_empty.
        destruct (decide (id = i)) as [->|Hne]; [by rewrite lookup_delete_eq|].
        rewrite lookup_delete_ne by done.
        destruct (pending (t_timers s) !! i) eqn:Hi; [|done].
        exfalso. apply Hne, Huniq; by eexists.
      * eapply Forall_impl; [exact (Hbefore _ _ _ Hid)|]. cbn. intros o Ho Hi.
        specialize (Ho Hi). lia.
    + destruct Hmode as [Hempty _]. by rewrite Hempty, lookup_empty in Hid.
Qed.

End Invariants.





End TimersFacts.

(** ** The admin mobile controller: properties *)

Module AdminFacts.
Import Admin.

Lemma record_nil p : record [] p = p.
Proof. destruct p; unfold record; simpl. by rewrite app_nil_r. Qed.

Lemma requests_app es1 es2 : requests (es1 ++ es2) = requests es1 ++ requests es2.
Proof. unfold requests. apply omap_app. Qed.

(** What the statements after the [switch] do, case by case. *)
Lemma conclude_cases result p :
  conclude result p =
  match result with
  | None => (Throw TypeError, p)
  | Some None => (Throw SyntaxError, p)
  | Some (Some response) =>
      match get_field response (lit "success") with
      | Throw e => (Throw e, p)
      | Normal success =>
          if truthy success
          then (Normal tt, closed (record [Toast (JStr msg_success); Reload] p))
          else match get_field response (lit "message") with
               | Throw e => (Throw e, p)
               | Normal message =>
                   (Normal tt,
                    record [Toast (if truthy message then default JNull message
                                   else JStr msg_failure)] p)
               end
      end
  end.
Proof.
  unfold conclude. destruct result as [[response|]|]; try reflexivity.
  run_js.
  destruct (get_field response (lit "success")) as [success|]; [|reflexivity].
  destruct (truthy success).
  - unfold closed, record; cbn. by rewrite <- app_assoc.
  - destruct (get_field response (lit "message")); reflexivity.
Qed.

(** Reading [success] succeeds on everything but [null]. *)
Lemma get_field_null v name e : get_field v name = Throw e -> v = JNull.
Proof. destruct v; simpl; congruence. Qed.

(** On a response that follows the interface, a message that is there is
    shown when it is not empty. *)
Lemma failure_toast_truthy message :
  (message = None \/ exists s, message = Some (JStr s)) ->
  (if truthy message then default JNull message else JStr msg_failure)
  = failure_toast message.
Proof.
  intros [->|[s ->]]; [reflexivity|]. destruct s; reflexivity.
Qed.


Lemma known_tag tag : In tag known_tags \/ tag ∉ known_tags.
Proof.
  destruct (decide (tag ∈ known_tags)) as [H|H]; [left|by right].
  by apply list_elem_of_In.
Qed.

(** [confirmEdit] with an editing session, case by case: the request of the
    interface is sent when there is one, and the answer decides the rest. *)
Lemma confirmEdit_cases inputs net p device :
  currentDevice p = Some device ->
  match interface_request device (currentEditType p) inputs with
  | Some r =>
      confirmEdit inputs net p =
      match net with
      | Response (Some response) =>
          match get_field response (lit "success") with
          | Throw _ => (Normal tt, record [Fetch r; Toast (JStr msg_network)] p)
          | Normal success =>
              if truthy success
              then (Normal tt,
                    closed (record [Fetch r; Toast (JStr msg_success); Reload] p))
              else match get_field response (lit "message") with
                   | Throw _ =>
                       (Normal tt, record [Fetch r; Toast (JStr msg_network)] p)
                   | Normal message =>
                       (Normal tt,
                        record [Fetch r;
                                Toast (if truthy message
                                       then default JNull message
                                       else JStr msg_failure)] p)
                   end
          end
      | _ => (Normal tt, record [Fetch r; Toast (JStr msg_network)] p)
      end
  | None =>
      exists m, m ∈ silent_toasts /\
                confirmEdit inputs net p = (Normal tt, record [Toast m] p)
  end.
Proof.
  intros Hd. destruct p as [cd tag us ms mt mb es]; simpl in Hd; subst cd.
  unfold confirmEdit, dispatch, interface_request, trimmed_input.
  cbn [currentEditType].
  run_js. cbn [currentDevice currentEditType].
  destruct (known_tag tag) as [Htag|Htag].
  - unfold known_tags in Htag. cbn [In] in Htag.
    destruct Htag as [<-|[<-|[<-|[<-|[<-|[<-|[<-|[<-|[]]]]]]]]];
      decide_closed.
    all: repeat match goal with
         | |- context [@lookup _ _ (gmap _ _) _ ?k ?m] =>
             destruct (@lookup _ _ (gmap _ _) _ k m) eqn:?
         end.
    all: cbn [fmap option_fmap option_map mbind option_bind].
    all: repeat case_bool_decide.
    all: try (destruct net as [|[response|]]).
    all: rewrite ?conclude_cases.
    all: repeat match goal with
         | |- context [get_field ?r ?k] => destruct (get_field r k) eqn:?
         end.
    all: repeat match goal with
         | |- context [truthy ?s] => destruct (truthy s) eqn:?
         end.
    all: try congruence.
    all: unfold record, closed; cbn [currentDevice currentEditType users modalShown modalTitle modalBody effects]; rewrite <- ?app_assoc.
    all: try reflexivity.
    all: eexists; (split; [|reflexivity]); unfold silent_toasts; set_solver.
  - assert (Hne : forall k, In k known_tags -> tag <> k).
    { intros k Hk ->. by apply Htag, list_elem_of_In. }
    rewrite !bool_decide_eq_false_2.
    + rewrite conclude_cases. exists (JStr msg_network).
      split; [unfold silent_toasts; set_solver|]. reflexivity.
    + intros Hin%list_elem_of_In. apply Htag, list_elem_of_In.
      cbn [In known_tags] in *. tauto.
    + apply Hne; cbn [In known_tags]; tauto.
    + apply Hne; cbn [In known_tags]; tauto.
    + apply Hne; cbn [In known_tags]; tauto.
    + apply Hne; cbn [In known_tags]; tauto.
    + apply Hne; cbn [In known_tags]; tauto.
    + apply Hne; cbn [In known_tags]; tauto.
    + apply Hne; cbn [In known_tags]; tauto.
    + apply Hne; cbn [In known_tags]; tauto.
Qed.


(** [find] gives the first device with the id, and none when no device has
    it. *)
Lemma find_device_Some devices deviceId device :
  find_device devices deviceId = Some device ->
  device ∈ devices /\ id device = deviceId.
Proof.
  unfold find_device. intros H. apply find_some in H as [Hin Hid].
  split; [by apply list_elem_of_In|]. by apply bool_decide_eq_true in Hid.
Qed.

Lemma find_device_None devices deviceId :
  find_device devices deviceId = None <->
  forall d, d ∈ devices -> id d <> deviceId.
Proof.
  unfold find_device. split.
  - intros H d Hd%list_elem_of_In Hid.
    pose proof (find_none _ _ H d Hd) as Hn. cbn in Hn.
    by apply bool_decide_eq_false in Hn.
  - intros H. destruct (find _ devices) as [d|] eqn:E; [|done].
    apply find_some in E as [Hin Hid]. apply bool_decide_eq_true in Hid.
    exfalso. eapply H; [by apply list_elem_of_In|done].
Qed.

Lemma find_device_is_Some devices deviceId :
  (exists d, d ∈ devices /\ id d = deviceId) ->
  is_Some (find_device devices deviceId).
Proof.
  intros (d & Hd & Hid). destruct (find_device devices deviceId) eqn:E; [eauto|].
  exfalso. eapply find_device_None; eauto.
Qed.

(** The options of a usable user list are built without a throw. *)
Lemma user_options_ok us :
  Forall (fun x => x <> JNull) us -> exists l, user_options us = Normal l.
Proof.
  induction 1 as [|u us Hu _ [l IH]]; [by eexists|].
  cbn [user_options]. rewrite IH.
  destruct u; try done; cbn [get_field]; by eexists.
Qed.

Lemma users_map_ok u : user_array u -> exists l, users_map u = Normal l.
Proof. destruct u; try done. apply user_options_ok. Qed.

(** What [loadUsers] leaves behind. *)
Lemma loadUsers_cases net p :
  loadUsers net p =
  (Normal tt,
   {| currentDevice := currentDevice p; currentEditType := currentEditType p;
      users := users_after net p; modalShown := modalShown p;
      modalTitle := modalTitle p; modalBody := modalBody p;
      effects := effects p ++ [Fetch users_request] |}).
Proof. destruct net as [|[u|]]; reflexivity. Qed.

(** *** No editing session *)



(** *** Required fields *)




(** *** The request of a confirmation *)


(** The shapes the interface lists, checked on the requests that
    [interface_request] builds. *)
Ltac listing_shape :=
  unfold interface_listing; cbn [method url body_keys body fmap list_fmap fst];
  rewrite ?app_nil_r;
  first
    [ left; by split_and!
    | right; left; by split_and!
    | right; right; left; by split_and!
    | right; right; right; left; by split_and!
    | right; right; right; right; eexists; split_and!; try reflexivity;
      apply list_elem_of_In; cbn [In]; tauto ].



(** *** The answer to a confirmation *)


(** The test of [success] is on truthiness: a [success] of [1] closes the
    modal as [true] does. *)
Example confirmEdit_truthy_success :
  confirmEdit filled (Response (Some (JObj [(lit "success", JNum 1)])))
    (editing (lit "return"))
  = (Normal tt,
     closed (record [Fetch (return_request pad); Toast (JStr msg_success); Reload]
               (editing (lit "return")))).
Proof. reflexivity. Qed.



(** *** Opening a modal *)





End AdminFacts.

(** ** The utility library: further properties *)

Module UtilsMore.
Import Utils.

(** *** White space and [trim] *)

Lemma trim_start_nil s : trim_start s = [] <-> forallb is_space s = true.
Proof.
  induction s as [|c s IH]; [done|]. cbn [trim_start forallb].
  destruct (is_space c); [exact IH|]. split; discriminate.
Qed.

Lemma trim_start_head s c t : trim_start s = c :: t -> is_space c = false.
Proof.
  induction s as [|c' s IH]; [done|]. cbn [trim_start].
  destruct (is_space c') eqn:Hc; [exact IH|]. by intros [= -> _].
Qed.

Lemma forallb_rev {A} (f : A -> bool) l : forallb f (rev l) = forallb f l.
Proof.
  induction l as [|a l IH]; [done|]. cbn [rev forallb].
  rewrite forallb_app, IH. cbn. by rewrite andb_true_r, andb_comm.
Qed.

(** [trim] leaves nothing exactly of the strings made of white space. *)
Lemma trim_nil s : trim s = [] <-> forallb is_space s = true.
Proof.
  unfold trim. rewrite <- trim_start_nil.
  destruct (trim_start s) as [|c t] eqn:Hs.
  - done.
  - split; [|done]. intros H. exfalso.
    assert (Hr : trim_start (rev (c :: t)) = []).
    { destruct (trim_start (rev (c :: t))); [done|].
      apply (f_equal (@length N)) in H. rewrite length_rev in H. done. }
    apply trim_start_nil in Hr. rewrite forallb_rev in Hr. cbn in Hr.
    by rewrite (trim_start_head _ _ _ Hs) in Hr.
Qed.

(** *** validators *)

(** X1. On a string, [validators.required] answers [true] exactly when the
    string has a code unit that is not white space; on the empty string and
    on a string of white space it answers the message, which is the default
    one when the caller gives none. *)
Theorem required_wants_visible_text s message :
  validators.required (VStr s) message
  = Normal (if forallb is_space s
            then default_param msg_required message
            else VBool true).
Proof.
  unfold validators.required. cbn [truthy].
  destruct s as [|c s]; [done|].
  rewrite bool_decide_eq_false_2 by done. cbn [negb].
  destruct (forallb is_space (c :: s)) eqn:Hall.
  - by rewrite bool_decide_eq_true_2 by by apply trim_nil.
  - rewrite bool_decide_eq_false_2; [done|].
    intros H%trim_nil. congruence.
Qed.

(** The strings [/^1[3-9]\d{9}$/] matches, spelled out. *)
Lemma phoneRegex_spec s :
  validators.phoneRegex s = true <->
  length s = 11%nat /\
  Forall (fun c => is_digit c = true) s /\
  s !! 0%nat = Some 49%N /\
  exists c, s !! 1%nat = Some c /\ (51 <= c <= 57)%N.
Proof.
  unfold validators.phoneRegex.
  destruct s as [|c0 [|c1 rest]].
  - split; [done|]. by intros [? _].
  - split; [done|]. by intros [? _].
  - rewrite !andb_true_iff, N.eqb_eq, !N.leb_le, Nat.eqb_eq, forallb_forall.
    cbn [length lookup list_lookup]. split.
    + intros ((((-> & H3) & H9) & Hlen) & Hall). split_and!.
      * by rewrite Hlen.
      * constructor; [done|]. constructor.
        -- unfold is_digit. apply andb_true_iff.
           rewrite !N.leb_le. lia.
        -- apply Forall_forall. intros x Hx. apply Hall.
           by apply list_elem_of_In.
      * done.
      * exists c1. split; [done|lia].
    + intros (Hlen & Hall & [= ->] & c & [= <-] & H3 & H9).
      split_and!; try done; try lia.
      intros x Hx%list_elem_of_In.
      apply Forall_cons in Hall as [_ Hall].
      apply Forall_cons in Hall as [_ Hall].
      rewrite Forall_forall in Hall. by apply Hall.
Qed.

Lemma phone_verdict v :
  validators.phone v VUndefined
  = Normal (if validators.phoneRegex (ToString v) then VBool true
            else VStr msg_phone).
Proof.
  unfold validators.phone. cbn [default_param].
  by destruct (validators.phoneRegex (ToString v)).
Qed.

(** X2. [validators.phone] accepts exactly the values whose string has
    eleven code units, all of them decimal digits, the first [1] and the
    second from [3] to [9]; a number is judged by its decimal string. *)
Theorem phone_accepts_mainland_mobile v :
  validators.phone v VUndefined = Normal (VBool true) <->
  length (ToString v) = 11%nat /\
  Forall (fun c => is_digit c = true) (ToString v) /\
  ToString v !! 0%nat = Some 49%N /\
  exists c, ToString v !! 1%nat = Some c /\ (51 <= c <= 57)%N.
Proof.
  rewrite <- phoneRegex_spec, phone_verdict.
  destruct (validators.phoneRegex (ToString v)); split; done.
Qed.

(** X3. A string that [validators.phone] accepts is masked by [maskPhone]:
    the first three and the last four digits stay, [****] stands for the
    four in between; and the masked string is no phone number for
    [validators.phone] any more. *)
Theorem accepted_phone_is_masked s :
  validators.phone (VStr s) VUndefined = Normal (VBool true) ->
  exists masked,
    maskPhone (Some s) = Some masked /\
    masked = take 3 s ++ lit "****" ++ drop 7 s /\
    length masked = 11%nat /\
    validators.phone (VStr masked) VUndefined = Normal (VStr msg_phone).
Proof.
  rewrite phone_verdict. cbn [ToString].
  destruct (validators.phoneRegex s) eqn:Hs; [|done]. intros _.
  apply phoneRegex_spec in Hs as (Hlen & _).
  destruct (UtilsFacts.length_eleven s Hlen) as (a&b&c&d&e&f&g&h&i&j&k&->).
  eexists. split_and!; try reflexivity.
  rewrite phone_verdict. cbn [ToString].
  destruct (validators.phoneRegex _) eqn:Hm; [|done].
  apply phoneRegex_spec in Hm as (_ & Hall & _).
  rewrite Forall_forall in Hall.
  specialize (Hall 42%N ltac:(cbn; set_solver)). done.
Qed.

Lemma accepted_phone_is_masked_witness :
  exists masked,
    maskPhone (Some (lit "13812345678")) = Some masked /\
    masked = lit "138****5678" /\
    validators.phone (VStr masked) VUndefined = Normal (VStr msg_phone).
Proof.
  destruct (accepted_phone_is_masked (lit "13812345678")) as (m & Hm & -> & _ & Hp).
  - reflexivity.
  - eexists. split_and!; [exact Hm|reflexivity|exact Hp].
Defined.

(** *** maskPhone *)

(** X4. Masking twice is masking once, and masking never changes the
    length of a string. *)
Theorem maskPhone_idempotent phone :
  maskPhone (maskPhone phone) = maskPhone phone /\
  length <$> maskPhone phone = length <$> phone.
Proof.
  destruct phone as [s|]; [|done]. unfold maskPhone.
  case_bool_decide as Hnil; [subst; done|]. cbn [orb].
  destruct (Nat.eqb_spec (length s) 11) as [Hlen|Hlen]; cbn [negb]; [|].
  - destruct (UtilsFacts.length_eleven s Hlen) as (a&b&c&d&e&f&g&h&i&j&k&->).
    split; reflexivity.
  - rewrite bool_decide_eq_false_2 by done.
    destruct (Nat.eqb_spec (length s) 11); done.
Qed.

(** X5. The masked form of an eleven-unit string depends on its first
    three and its last four code units only: two such strings have the
    same masked form exactly when they agree there. *)
Theorem maskPhone_tells_ends_only s s' :
  length s = 11%nat -> length s' = 11%nat ->
  maskPhone (Some s) = maskPhone (Some s') <->
  take 3 s = take 3 s' /\ drop 7 s = drop 7 s'.
Proof.
  intros Hs Hs'.
  destruct (UtilsFacts.length_eleven s Hs) as (a&b&c&d&e&f&g&h&i&j&k&->).
  destruct (UtilsFacts.length_eleven s' Hs') as (a'&b'&c'&d'&e'&f'&g'&h'&i'&j'&k'&->).
  cbn. split.
  - intros [= -> -> -> -> -> -> ->]. done.
  - intros [[= -> -> ->] [= -> -> -> ->]]. done.
Qed.

Lemma maskPhone_tells_ends_only_witness :
  maskPhone (Some (lit "13812345678")) = maskPhone (Some (lit "13800005678")).
Proof.
  apply (maskPhone_tells_ends_only (lit "13812345678") (lit "13800005678"));
    [reflexivity|reflexivity|]. split; reflexivity.
Defined.

End UtilsMore.

(** ** validateForm and storage: further properties *)

Module FormsMore.
Import Utils More.

(** *** validateForm *)

(** The outer loop on two orders of the same rules: when it returns on
    one, it returns the same errors on the other. *)
Lemma check_fields_Permutation formData rules rules' :
  rules ≡ₚ rules' -> NoDup rules.*1 ->
  forall acc errs,
    check_fields formData rules acc = Normal errs ->
    check_fields formData rules' acc = Normal errs.
Proof.
  induction 1 as [|[f rs] l l' Hperm IH|[f1 rs1] [f2 rs2] l|l l' l'' H1 IH1 H2 IH2];
    intros Hnd acc errs Hrun.
  - done.
  - cbn [fmap list_fmap fst] in Hnd. apply NoDup_cons in Hnd as [_ Hnd].
    cbn [check_fields] in *.
    destruct (check_field (field_value formData f) rs) as [[x|]|]; [| |done];
      by apply IH.
  - cbn [fmap list_fmap fst] in Hnd. apply NoDup_cons in Hnd as [Hne _].
    apply not_elem_of_cons in Hne as [Hne _].
    cbn [check_fields] in *.
    destruct (check_field (field_value formData f1) rs1) as [[x1|]|],
      (check_field (field_value formData f2) rs2) as [[x2|]|]; try done.
    by rewrite insert_insert_ne.
  - apply IH2; [by rewrite <- H1|]. by apply IH1.
Qed.



Lemma check_fields_agree formData formData' rules acc :
  (forall field, field ∈ rules.*1 -> formData !! field = formData' !! field) ->
  check_fields formData rules acc = check_fields formData' rules acc.
Proof.
  revert acc. induction rules as [|[f rs] rules IH]; intros acc Hagree; [done|].
  cbn [check_fields]. unfold field_value.
  rewrite (Hagree f) by (cbn; left).
  assert (Hrest : forall field, field ∈ rules.*1 ->
                    formData !! field = formData' !! field).
  { intros field Hf. apply Hagree. cbn. by right. }
  destruct (check_field (default VUndefined (formData' !! f)) rs) as [[x|]|];
    [by apply IH|by apply IH|done].
Qed.



Lemma check_field_throws v pre r post e :
  Forall (passes v) pre -> apply_rule v r = Throw e ->
  check_field v (pre ++ r :: post) = Throw e.
Proof.
  intros Hpre Hr. induction Hpre as [|r' pre Hr' _ IH]; cbn [app check_field].
  - by rewrite Hr.
  - rewrite Hr'. by rewrite bool_decide_eq_true_2.
Qed.

Lemma check_fields_throws formData rules field fieldRules e acc :
  (field, fieldRules) ∈ rules ->
  check_field (field_value formData field) fieldRules = Throw e ->
  exists e', check_fields formData rules acc = Throw e'.
Proof.
  revert acc. induction rules as [|[f rs] rules IH]; intros acc Hin Hthrow.
  - by apply elem_of_nil in Hin.
  - cbn [check_fields]. apply elem_of_cons in Hin as [[= <- <-]|Hin].
    + rewrite Hthrow. by eexists.
    + destruct (check_field (field_value formData f) rs) as [[x|]|];
        [by apply IH|by apply IH|by eexists].
Qed.



(** *** storage *)

Section StorageMore.
Context {V : Type} `{JSON V}.

Lemma storage_get_reads ls key (d : V) :
  storage_get key d ls =
  (Normal (if available ls then
             match items ls !! key with
             | Some (c :: t) =>
                 match parse (c :: t) with Normal v => v | Throw _ => d end
             | _ => d
             end
           else d), ls).
Proof.
  unfold storage_get, getItem, try_catch, lift.
  cbv [mbind M_bind bind mret M_ret ret console_error].
  destruct (available ls); [|done].
  destruct (items ls !! key) as [[|c t]|]; try done.
  by destruct (parse (c :: t)).
Qed.

Lemma storage_set_writes ls key (v : V) :
  storage_set key v ls = (Normal tt, ls) \/
  exists t, storage_set key v ls
            = (Normal tt, {| items := <[key := t]> (items ls);
                             available := true;
                             capacity := capacity ls |}) /\
            available ls = true.
Proof.
  unfold storage_set, setItem, try_catch, lift.
  cbv [mbind M_bind bind mret M_ret ret console_error].
  destruct (stringify v) as [o|]; [|by left].
  destruct (available ls) eqn:Hav; [|by left].
  destruct (_ <=? _)%N; [|by left]. right. by eexists.
Qed.

Lemma storage_remove_deletes ls key :
  storage_remove key ls =
  (Normal tt,
   if available ls
   then {| items := delete key (items ls); available := true;
           capacity := capacity ls |}
   else ls).
Proof.
  unfold storage_remove, removeItem, try_catch. cbv [console_error ret].
  by destruct (available ls).
Qed.

End StorageMore.

(** X9. After [storage.remove(k)], [storage.get(k, d)] gives the default
    [d], whatever was stored and whatever the state of the store: a
    blocked store gives the default as well. *)
Theorem storage_remove_then_get {V : Type} `{JSON V} ls key (d : V) :
  (storage_get key d (storage_remove key ls).2).1 = Normal d.
Proof.
  rewrite storage_remove_deletes, storage_get_reads. cbn [fst snd].
  destruct (available ls) eqn:Hav.
  - cbn [available items]. by rewrite lookup_delete_eq.
  - by rewrite Hav.
Qed.

(** X10. [storage.get] leaves the store as it is, and what it gives for a
    key is not changed by a [storage.set] or a [storage.remove] of another
    key, accepted or not. *)
Theorem storage_keys_are_independent {V : Type} `{JSON V} ls key key' (v d : V) :
  key <> key' ->
  (storage_get key' d ls).2 = ls /\
  (storage_get key' d (storage_set key v ls).2).1 = (storage_get key' d ls).1 /\
  (storage_get key' d (storage_remove key ls).2).1 = (storage_get key' d ls).1.
Proof.
  intros Hne. split_and!.
  - by rewrite storage_get_reads.
  - destruct (storage_set_writes ls key v) as [->|(t & -> & Hav)]; [done|].
    rewrite !storage_get_reads. cbn [fst snd available items].
    by rewrite Hav, lookup_insert_ne.
  - rewrite storage_remove_deletes, !storage_get_reads. cbn [fst snd].
    destruct (available ls) eqn:Hav; [|by rewrite Hav].
    cbn [available items]. by rewrite lookup_delete_ne.
Qed.

Lemma storage_keys_are_independent_witness :
  (storage_get (lit "seen") (Some false)
     (storage_set (lit "asked") None roomy).2).1
  = (storage_get (lit "seen") (Some false) roomy).1.
Proof.
  refine (proj1 (proj2 (storage_keys_are_independent roomy (lit "asked") (lit "seen")
                          None (Some false) _))).
  discriminate.
Defined.

End FormsMore.

(** ** formatDate: further properties *)

Module FormatMore.
Import Utils More.

(** A numeral tells its number. *)
Lemma uint_units_inj u u' : uint_units u = uint_units u' -> u = u'.
Proof.
  revert u'. induction u; intros u'; destruct u'; cbn [uint_units];
    intros [=]; f_equal; auto.
Qed.

Lemma uint_units_no_sign u t : uint_units u <> 45%N :: t.
Proof. by destruct u. Qed.

Lemma Z_of_to_int z : Z.of_int (Z.to_int z) = z.
Proof.
  destruct z as [|p|p]; cbn; [done| |];
    unfold Z.of_uint; rewrite DecimalPos.Unsigned.of_to; by destruct p.
Qed.

Lemma String_of_Z_inj z z' : String_of_Z z = String_of_Z z' -> z = z'.
Proof.
  unfold String_of_Z. intros H.
  rewrite <- (Z_of_to_int z), <- (Z_of_to_int z').
  destruct (Z.to_int z) as [u|u], (Z.to_int z') as [u'|u'].
  - by rewrite (uint_units_inj u u' H).
  - by apply uint_units_no_sign in H.
  - symmetry in H. by apply uint_units_no_sign in H.
  - injection H as H. by rewrite (uint_units_inj u u' H).
Qed.

Lemma pad2_inj z z' :
  0 <= z <= 99 -> 0 <= z' <= 99 -> pad2 z = pad2 z' -> z = z'.
Proof.
  intros Hz Hz'. unfold pad2. intros [= H1 H2].
  apply Z2N.inj in H1, H2; try lia.
  - pose proof (Z.div_mod z 10). pose proof (Z.div_mod z' 10). lia.
  - pose proof (Z.mod_pos_bound z' 10). lia.
  - pose proof (Z.mod_pos_bound z 10). lia.
  - pose proof (Z.div_pos z' 10). lia.
  - pose proof (Z.div_pos z 10). lia.
Qed.

(** The default format, spelled out. *)
Lemma formatDate_default d :
  valid_date d ->
  formatDate d None
  = String_of_Z (getFullYear d) ++ lit "-" ++ pad2 (getMonth d + 1) ++ lit "-"
    ++ pad2 (getDate d).
Proof.
  intros (Hy & Hmo & Hd & Hh & Hmi).
  change (formatDate d None)
    with (subst_seq (date_table d) (pattern_text default_template)).
  rewrite (FormatFacts.subst_seq_template d _ FormatFacts.default_template_faithful).
  unfold rendered. cbn [fmap list_fmap default_template concat piece_value token_value].
  rewrite app_nil_r, !FormatFacts.two_digits_pad2 by lia. done.
Qed.

(** X11. For the years 1000 to 9999, the default format [YYYY-MM-DD] tells
    the day: two valid dates are printed alike exactly when they have the
    same year, month and day of the month. *)
Theorem formatDate_default_tells_the_day d d' :
  valid_date d -> valid_date d' ->
  1000 <= getFullYear d <= 9999 -> 1000 <= getFullYear d' <= 9999 ->
  formatDate d None = formatDate d' None <->
  getFullYear d = getFullYear d' /\ getMonth d = getMonth d' /\
  getDate d = getDate d'.
Proof.
  intros Hv Hv' Hy Hy'.
  rewrite (formatDate_default d Hv), (formatDate_default d' Hv').
  destruct Hv as (_ & Hmo & Hd & _), Hv' as (_ & Hmo' & Hd' & _).
  destruct (FormatFacts.four_digit_year _ Hy) as [Hlen _].
  destruct (FormatFacts.four_digit_year _ Hy') as [Hlen' _].
  split.
  - intros H. apply app_inj_1 in H as [Hyear H]; [|congruence].
    apply String_of_Z_inj in Hyear.
    injection H as Hm1 Hm2 Hd1 Hd2. split_and!; [done| |].
    + assert (getMonth d + 1 = getMonth d' + 1) as Hmonth; [|lia].
      apply pad2_inj; [lia|lia|]. unfold pad2. congruence.
    + apply pad2_inj; [lia|lia|]. unfold pad2. congruence.
  - intros (-> & -> & ->). done.
Qed.

Lemma formatDate_default_tells_the_day_witness :
  formatDate epiphany None = formatDate later_that_day None.
Proof.
  apply (formatDate_default_tells_the_day epiphany later_that_day);
    try (unfold valid_date, epiphany, later_that_day; cbn; lia).
Defined.

End FormatMore.

(** ** debounce and throttle: further properties *)

Module TimersMore.
Import Timers More.

Lemma run_app {S E} (step : S -> E -> option S) s evs evs' :
  run step s (evs ++ evs')
  = match run step s evs with
    | Some s' => run step s' evs'
    | None => None
    end.
Proof.
  revert s. induction evs as [|e evs IH]; intros s; [done|].
  cbn [app run]. destruct (step s e); [apply IH|done].
Qed.

Section DebounceMore.
Context {A : Type}.
Implicit Types s : debounced (A := A).

(** [clearTimeout(timeout)] leaves no timer pending. *)
Lemma debounce_cleared wait s :
  debounce_inv wait s ->
  pending (clearTimeout (timeout s) (d_timers s)) = ∅.
Proof.
  intros (_ & Hpend & _). apply map_eq. intros i. rewrite lookup_empty.
  destruct (pending (clearTimeout (timeout s) (d_timers s)) !! i)
    as [[due a]|] eqn:Hi; [|done].
  exfalso. destruct (timeout s) as [j|] eqn:Hj; cbn in Hi.
  - destruct (decide (j = i)) as [->|Hne].
    + by rewrite lookup_delete_eq in Hi.
    + rewrite lookup_delete_ne in Hi by done.
      destruct (Hpend _ _ _ Hi) as [Heq _]. congruence.
  - destruct (Hpend _ _ _ Hi) as [Heq _]. congruence.
Qed.

(** After a call, the one pending timer is the timer of that call. *)
Lemma executedFunction_pending wait t args s :
  debounce_inv wait s ->
  pending (d_timers (executedFunction wait t args s))
  = {[ next_id (d_timers s) := (t + Z.max 0 wait, args) ]} /\
  timeout (executedFunction wait t args s) = Some (next_id (d_timers s)).
Proof.
  intros Hinv. unfold executedFunction, setTimeout.
  cbn [d_timers pending timeout]. rewrite (debounce_cleared wait s Hinv).
  assert (Hn : next_id (clearTimeout (timeout s) (d_timers s))
               = next_id (d_timers s)) by by destruct (timeout s).
  rewrite Hn. split; [by rewrite insert_empty|done].
Qed.

(** After [later], no timer is pending. *)
Lemma later_pending wait t id args s :
  debounce_inv wait s ->
  pending (d_timers (later t id args s)) = ∅.
Proof.
  intros (_ & Hpend & _). unfold later. cbn [d_timers].
  apply map_eq. intros i. rewrite lookup_empty.
  match goal with |- ?m !! i = None => destruct (m !! i) as [[due a]|] eqn:Hi end;
    [|done].
  exfalso.
  assert (Hin : exists j, timeout s = Some j /\ j <> i /\
                          pending (d_timers s) !! i = Some (due, a)).
  { destruct (timeout s) as [j|] eqn:Hj; cbn in Hi.
    - destruct (decide (j = i)) as [->|Hne]; [by rewrite lookup_delete_eq in Hi|].
      rewrite lookup_delete_ne in Hi by done.
      destruct (decide (id = i)) as [->|Hne']; [by rewrite lookup_delete_eq in Hi|].
      rewrite lookup_delete_ne in Hi by done. by exists j.
    - destruct (decide (id = i)) as [->|Hne']; [by rewrite lookup_delete_eq in Hi|].
      rewrite lookup_delete_ne in Hi by done.
      destruct (Hpend _ _ _ Hi) as [Heq _]. congruence. }
  destruct Hin as (j & Hj & Hne & Hi').
  destruct (Hpend _ _ _ Hi') as [Heq _]. congruence.
Qed.

Lemma served_initial wait : served wait (debounce (A := A)).
Proof.
  split_and!; [apply TimersFacts.debounce_inv_initial|done|].
  intros id due args Hid. cbn in Hid. by rewrite lookup_empty in Hid.
Qed.

Lemma served_step wait s e s' :
  served wait s -> debounce_step wait s e = Some s' -> served wait s'.
Proof.
  intros (Hinv & Hans & Hlast) Hstep.
  split; [by eapply TimersFacts.debounce_inv_step|].
  destruct e as [t args|t id]; cbn [debounce_step] in Hstep.
  - destruct (d_clock s <=? t); [|done]. injection Hstep as <-.
    split.
    + unfold executedFunction, setTimeout. by cbn [d_trace answers].
    + intros id due a Hid.
      destruct (executedFunction_pending wait t args s Hinv) as [Hp _].
      rewrite Hp in Hid. apply lookup_singleton_Some in Hid as [_ [= <- <-]].
      unfold executedFunction, setTimeout. cbn [d_trace]. by eexists _, _.
  - destruct (pending (d_timers s) !! id) as [[due args]|] eqn:Hid; [|done].
    destruct (Z.leb_spec (d_clock s) t) as [Hc|]; [|done].
    destruct (Z.leb_spec due t) as [Hdue|]; [|done].
    cbn [andb] in Hstep. injection Hstep as <-.
    destruct (Hlast _ _ _ Hid) as (c & rest & Htrace & ->).
    split.
    + unfold later. cbn [d_trace answers]. rewrite Htrace.
      split; [done|]. by rewrite <- Htrace.
    + intros i due' a Hi. by rewrite (later_pending wait t id args s Hinv) in Hi.
Qed.

Lemma served_run wait evs s :
  run (debounce_step wait) debounce evs = Some s -> served wait s.
Proof.
  apply (TimersFacts.run_invariant (debounce_step wait) (served wait)).
  - intros ???. apply served_step.
  - apply served_initial.
Qed.

End DebounceMore.





Section ThrottleMore.
Context {A : Type}.
Variable func : A -> completion unit.
Implicit Types s : throttled (A := A).

Lemma on_the_call_step limit s e s' :
  answers (fun c t => c = t) (t_trace s) ->
  throttle_step func limit s e = Some s' ->
  answers (fun c t => c = t) (t_trace s').
Proof.
  intros Hans Hstep. destruct e as [t args|t id]; cbn [throttle_step] in Hstep.
  - destruct (t_clock s <=? t); [|done]. injection Hstep as <-.
    unfold throttled_call. destruct (inThrottle s); [done|].
    destruct (func args); unfold setTimeout; by cbn [t_trace answers].
  - destruct (pending (t_timers s) !! id) as [[due u]|]; [|done].
    destruct ((t_clock s <=? t) && (due <=? t)); [|done].
    by injection Hstep as <-.
Qed.

Lemma unthrottled_step limit s e s' :
  (forall a, exists x, func a = Throw x) ->
  unthrottled s -> throttle_step func limit s e = Some s' -> unthrottled s'.
Proof.
  intros Hthrows (Hin & Hpend & Hcount) Hstep.
  destruct e as [t args|t id]; cbn [throttle_step] in Hstep.
  - destruct (t_clock s <=? t); [|done]. injection Hstep as <-.
    unfold throttled_call. rewrite Hin.
    destruct (Hthrows args) as [x ->].
    split_and!; [done..|].
    cbn [t_trace]. unfold invocations, calls in *.
    rewrite !filter_cons. cbn [is_invoked].
    rewrite !decide_True, !decide_False by done. cbn [length]. by rewrite Hcount.
  - by rewrite Hpend, lookup_empty in Hstep.
Qed.

End ThrottleMore.

(** X14. The wrapper made by [throttle] invokes the wrapped function only
    in the course of a call of the wrapper, with the arguments of that
    call: in every run, each invocation comes right after a call at the
    same time with the same arguments.  A call that is dropped while the
    wrapper is throttled is not made up for later. *)
Theorem throttle_serves_on_the_call {A : Type} (func : A -> completion unit)
    limit evs s :
  run (throttle_step func limit) throttle evs = Some s ->
  answers (fun c t => c = t) (t_trace s).
Proof.
  apply (TimersFacts.run_invariant (throttle_step func limit)
           (fun s => answers (fun c t => c = t) (t_trace s))).
  - intros ???. apply on_the_call_step.
  - done.
Qed.

Lemma throttle_serves_on_the_call_witness :
  exists s,
    run (throttle_step returning 100) throttle steady = Some s /\
    answers (fun c t => c = t) (t_trace s).
Proof.
  eexists. split; [reflexivity|].
  exact (throttle_serves_on_the_call returning 100 steady _ eq_refl).
Defined.

(** X15. A wrapped function that always throws is never throttled: in
    every run, [inThrottle] stays unset, no timer is ever started, and the
    function is invoked at every call of the wrapper. *)
Theorem throttle_never_holds_a_thrower {A : Type} (func : A -> completion unit)
    limit evs s :
  (forall a, exists x, func a = Throw x) ->
  run (throttle_step func limit) throttle evs = Some s ->
  inThrottle s = false /\ pending (t_timers s) = ∅ /\
  invocations (t_trace s) = calls (t_trace s).
Proof.
  intros Hthrows.
  apply (TimersFacts.run_invariant (throttle_step func limit) (unthrottled (A := A))).
  - intros ???. by apply unthrottled_step.
  - done.
Qed.

Lemma throttle_never_holds_a_thrower_witness :
  exists s,
    run (throttle_step refusing 100) throttle
      [Call 0 (lit "a"); Call 1 (lit "b"); Call 2 (lit "c")] = Some s /\
    invocations (t_trace s) = 3%nat.
Proof.
  eexists. split; [reflexivity|].
  destruct (throttle_never_holds_a_thrower refusing 100
              [Call 0 (lit "a"); Call 1 (lit "b"); Call 2 (lit "c")] _
              (fun a => ex_intro _ TypeError eq_refl) eq_refl) as (_ & _ & ->).
  reflexivity.
Defined.

End TimersMore.

(** ** The admin mobile controller: further properties *)

Module AdminMore.
Import Admin More.

(** *** What a run of [confirmEdit] leaves *)

Lemma confirmEdit_idle inputs net p :
  currentDevice p = None -> confirmEdit inputs net p = (Normal tt, p).
Proof. intros H. destruct p; simpl in H; subst. reflexivity. Qed.

(** A run that sends its request: the answer decides whether the modal is
    closed; nothing else is sent. *)
Lemma confirmEdit_sent inputs net p device r :
  currentDevice p = Some device ->
  interface_request device (currentEditType p) inputs = Some r ->
  exists es,
    requests es = [] /\
    (succeeds net = true -> Reload ∈ es) /\
    confirmEdit inputs net p
    = (Normal tt,
       if succeeds net then closed (record (Fetch r :: es) p)
       else record (Fetch r :: es) p).
Proof.
  intros Hd Hr. pose proof (AdminFacts.confirmEdit_cases inputs net p device Hd) as H.
  rewrite Hr in H. rewrite H. unfold succeeds.
  destruct net as [|[response|]];
    [eexists; refine (conj _ (conj _ eq_refl)); done
    | |eexists; refine (conj _ (conj _ eq_refl)); done].
  destruct (get_field response (lit "success")) as [success|];
    [|eexists; refine (conj _ (conj _ eq_refl)); done].
  destruct (truthy success).
  - eexists. refine (conj _ (conj _ eq_refl)); [done|]. intros _. set_solver.
  - destruct (get_field response (lit "message"));
      eexists; refine (conj _ (conj _ eq_refl)); done.
Qed.

(** A run that sends nothing shows one toast. *)
Lemma confirmEdit_silent inputs net p device :
  currentDevice p = Some device ->
  interface_request device (currentEditType p) inputs = None ->
  exists m, confirmEdit inputs net p = (Normal tt, record [Toast m] p).
Proof.
  intros Hd Hr. pose proof (AdminFacts.confirmEdit_cases inputs net p device Hd) as H.
  rewrite Hr in H. destruct H as (m & _ & H). by exists m.
Qed.




(** *** Closing the modal *)


(** *** A tag the switch does not know *)

Lemma confirmEdit_unknown_tag inputs net p device :
  currentDevice p = Some device ->
  currentEditType p ∉ known_tags ->
  confirmEdit inputs net p = (Normal tt, record [Toast (JStr msg_network)] p).
Proof.
  intros Hd Htag.
  destruct p as [cd tag us ms mt mb es]; simpl in Hd, Htag; subst cd.
  assert (Hne : forall k, In k known_tags -> tag <> k).
  { intros k Hk ->. by apply Htag, list_elem_of_In. }
  unfold confirmEdit, dispatch. run_js. cbn [currentDevice currentEditType].
  rewrite !bool_decide_eq_false_2.
  - by rewrite AdminFacts.conclude_cases.
  - intros Hin%list_elem_of_In. apply Htag, list_elem_of_In.
    cbn [In known_tags] in *. tauto.
  - apply Hne; cbn [In known_tags]; tauto.
  - apply Hne; cbn [In known_tags]; tauto.
  - apply Hne; cbn [In known_tags]; tauto.
  - apply Hne; cbn [In known_tags]; tauto.
Qed.

Lemma field_tag_unknown fieldType :
  fieldType ∉ field_types -> lit "field_" ++ fieldType ∉ known_tags.
Proof.
  intros Hft Hin%list_elem_of_In. apply Hft, list_elem_of_In.
  cbn [In known_tags field_types] in *.
  destruct Hin as [H|[H|[H|[H|[H|[H|[H|[H|[]]]]]]]]];
    try (vm_compute in H; discriminate H).
  - change (lit "field_borrower") with (lit "field_" ++ lit "borrower") in H.
    apply app_inv_head in H. tauto.
  - change (lit "field_cabinet") with (lit "field_" ++ lit "cabinet") in H.
    apply app_inv_head in H. tauto.
  - change (lit "field_keeper") with (lit "field_" ++ lit "keeper") in H.
    apply app_inv_head in H. tauto.
  - change (lit "field_status") with (lit "field_" ++ lit "status") in H.
    apply app_inv_head in H. tauto.
Qed.

(** What the openers leave when the device is found. *)
Lemma showReturnModal_found devices deviceId event p device :
  find_device devices deviceId = Some device ->
  showReturnModal devices deviceId event p
  = (Normal tt,
     session device (lit "return") (users p) TitleReturn ReturnConfirm
       (stops event) p).
Proof.
  intros Hf. unfold showReturnModal. rewrite Hf.
  destruct p, event; run_js; cbv beta iota; unfold session, stops;
    cbn [effects users]; by rewrite ?app_nil_r.
Qed.

Lemma showEditModal_found devices deviceId event p device :
  find_device devices deviceId = Some device ->
  showEditModal devices deviceId event p
  = (Normal tt,
     session device (lit "edit") (users p) TitleEdit (EditForm device)
       (stops event) p).
Proof.
  intros Hf. unfold showEditModal. rewrite Hf.
  destruct p, event; run_js; cbv beta iota; unfold session, stops;
    cbn [effects users]; by rewrite ?app_nil_r.
Qed.

Lemma showEditFieldModal_found devices deviceId fieldType event p device :
  find_device devices deviceId = Some device ->
  showEditFieldModal devices deviceId fieldType event p
  = (Normal tt,
     session device (lit "field_" ++ fieldType) (users p) (TitleField fieldType)
       (fieldContent fieldType device) (stops event) p).
Proof.
  intros Hf. unfold showEditFieldModal. rewrite Hf.
  destruct p, event; run_js; cbv beta iota; unfold session, stops;
    cbn [effects users]; by rewrite ?app_nil_r.
Qed.

Lemma opener_not_found devices deviceId event p :
  find_device devices deviceId = None ->
  (forall net, showBorrowModal devices deviceId event net p
               = (Normal tt, record (stops event) p)) /\
  showReturnModal devices deviceId event p = (Normal tt, record (stops event) p) /\
  (forall net, showTransferModal devices deviceId event net p
               = (Normal tt, record (stops event) p)) /\
  showEditModal devices deviceId event p = (Normal tt, record (stops event) p) /\
  (forall fieldType,
     showEditFieldModal devices deviceId fieldType event p
     = (Normal tt, record (stops event) p)).
Proof.
  intros Hno.
  split_and!; intros;
    unfold showBorrowModal, showTransferModal, showBorrowModal_begin,
      showReturnModal, showEditModal, showEditFieldModal;
    rewrite Hno; destruct event; run_js; cbv beta iota;
    by rewrite ?AdminFacts.record_nil.
Qed.

(** [showBorrowModal] and [showTransferModal] up to the point where the
    options of the form are built. *)
Lemma showBorrowModal_found devices deviceId event net p device :
  find_device devices deviceId = Some device ->
  showBorrowModal devices deviceId event net p
  = match users_map (users_after net p) with
    | Normal options =>
        (Normal tt,
         session device (lit "borrow") (users_after net p) TitleBorrow
           (BorrowForm options) (stops event ++ [Fetch users_request]) p)
    | Throw e =>
        (Throw e,
         {| currentDevice := Some device; currentEditType := currentEditType p;
            users := users_after net p; modalShown := modalShown p;
            modalTitle := TitleBorrow; modalBody := modalBody p;
            effects := effects p ++ stops event ++ [Fetch users_request] |})
    end.
Proof.
  intros Hf. unfold showBorrowModal, showBorrowModal_begin,
    showBorrowModal_resume, loadUsers. rewrite Hf.
  destruct p, net as [|[u|]], event; run_js; cbn [users_after users];
    match goal with |- context [users_map ?u] => destruct (users_map u) end;
    unfold session, stops; cbn [effects users app];
    by rewrite <- ?app_assoc.
Qed.

Lemma showTransferModal_found devices deviceId event net p device :
  find_device devices deviceId = Some device ->
  showTransferModal devices deviceId event net p
  = match users_map (users_after net p) with
    | Normal options =>
        (Normal tt,
         session device (lit "transfer") (users_after net p) TitleTransfer
           (TransferForm options) (stops event ++ [Fetch users_request]) p)
    | Throw e =>
        (Throw e,
         {| currentDevice := Some device; currentEditType := currentEditType p;
            users := users_after net p; modalShown := modalShown p;
            modalTitle := TitleTransfer; modalBody := modalBody p;
            effects := effects p ++ stops event ++ [Fetch users_request] |})
    end.
Proof.
  intros Hf. unfold showTransferModal, showBorrowModal_begin,
    showTransferModal_resume, loadUsers. rewrite Hf.
  destruct p, net as [|[u|]], event; run_js; cbn [users_after users];
    match goal with |- context [users_map ?u] => destruct (users_map u) end;
    unfold session, stops; cbn [effects users app];
    by rewrite <- ?app_assoc.
Qed.

Lemma requests_stops event : requests (stops event) = [].
Proof. by destruct event. Qed.



(** *** From the opening of a modal to the request *)



(** *** The openers and the network *)


(** *** The user list *)

(** [loadUsers] never throws and sends one request, [GET /api/users]; it
    replaces the user list when the answer is JSON, whatever the JSON is,
    and keeps the list it had when the network fails or the body is not
    JSON; the editing session and the modal are left as they are. *)
Lemma loadUsers_keeps_list_on_failure net p :
  (loadUsers net p).1 = Normal tt /\
  users (loadUsers net p).2
  = match net with Response (Some u) => u | _ => users p end /\
  effects (loadUsers net p).2 = effects p ++ [Fetch users_request] /\
  currentDevice (loadUsers net p).2 = currentDevice p /\
  currentEditType (loadUsers net p).2 = currentEditType p /\
  modalShown (loadUsers net p).2 = modalShown p /\
  modalTitle (loadUsers net p).2 = modalTitle p /\
  modalBody (loadUsers net p).2 = modalBody p.
Proof. rewrite AdminFacts.loadUsers_cases. by destruct net as [|[u|]]. Qed.



End AdminMore.

(** ** The helpers that touch the page: properties *)

Module PageFacts.
Import Timers UtilsPage More.

(** *** showToast *)

Lemma toast_visible_step p e p' :
  toast_visible_inv p -> toast_step p e = Some p' -> toast_visible_inv p'.
Proof.
  intros Hinv Hstep. destruct e as [t [message duration]|t id];
    cbn [toast_step] in Hstep.
  - destruct (toast_clock p <=? t); [|done]. injection Hstep as <-.
    unfold showToast, toast_visible_inv in *.
    destruct (toast p) as [el|] eqn:Hel.
    + unfold setTimeout. cbn [toast toast_timers pending].
      split; [|done]. intros el' _ _.
      exists (next_id (toast_timers p)). by rewrite lookup_insert_eq.
    + cbn [toast toast_timers]. split; [done|]. intros _. by apply Hinv.
  - destruct (pending (toast_timers p) !! id) as [[due u]|] eqn:Hid; [|done].
    destruct ((toast_clock p <=? t) && (due <=? t)); [|done].
    injection Hstep as <-. unfold toast_visible_inv in *.
    cbn [toast toast_timers pending]. split.
    + intros el' Hel' Hshown. destruct (toast p); [|done].
      injection Hel' as <-. done.
    + intros Hnone. destruct (toast p) eqn:Hel; [done|].
      destruct Hinv as [_ Hinv]. rewrite (Hinv eq_refl) in Hid.
      by rewrite lookup_empty in Hid.
Qed.

(** X24. A toast on screen always has a timer pending that will hide it:
    in every run of a page, when the element [toast] has the class [show],
    some timer of [showToast] is pending; and on a page without the
    element, [showToast] starts no timer at all. *)
Theorem visible_toast_has_a_timer el evs p :
  run toast_step (loaded el) evs = Some p ->
  (forall shown_el,
     toast p = Some shown_el -> shown shown_el = true ->
     exists id, is_Some (pending (toast_timers p) !! id)) /\
  (toast p = None -> pending (toast_timers p) = ∅).
Proof.
  apply (TimersFacts.run_invariant toast_step toast_visible_inv).
  - apply toast_visible_step.
  - split; [|done]. intros shown_el Hel Hshown.
    unfold loaded in Hel. cbn [toast] in Hel. destruct el; [|done].
    by injection Hel as <-.
Qed.

Lemma visible_toast_has_a_timer_witness :
  exists p id,
    run toast_step (loaded (Some blank_toast)) two_toasts = Some p /\
    is_Some (pending (toast_timers p) !! id).
Proof.
  eexists.
  destruct (visible_toast_has_a_timer (Some blank_toast) two_toasts _ eq_refl)
    as [H _].
  destruct (H _ eq_refl eq_refl) as [id Hid].
  exists id. split; [reflexivity|exact Hid].
Defined.

(** The two steps of the page of [showToast], when the browser can take
    them. *)
Lemma toast_call_step p el t message duration :
  toast p = Some el -> toast_clock p <= t ->
  toast_step p (Call t (message, duration))
  = Some {| toast := Some {| textContent := text_of message; shown := true |};
            toast_timers :=
              {| pending := <[next_id (toast_timers p) :=
                                (t + Z.max 0 (default 2000 duration), ())]>
                              (pending (toast_timers p));
                 next_id := S (next_id (toast_timers p)) |};
            toast_clock := t |}.
Proof.
  intros Hel Ht. cbn [toast_step].
  destruct (Z.leb_spec (toast_clock p) t) as [_|]; [|lia].
  unfold showToast. by rewrite Hel.
Qed.

Lemma toast_fire_step p t id due u :
  pending (toast_timers p) !! id = Some (due, u) ->
  toast_clock p <= t -> due <= t ->
  toast_step p (Fire t id)
  = Some {| toast := hide_toast <$> toast p;
            toast_timers := {| pending := delete id (pending (toast_timers p));
                               next_id := next_id (toast_timers p) |};
            toast_clock := t |}.
Proof.
  intros Hid Ht Hdue. cbn [toast_step]. rewrite Hid.
  destruct (Z.leb_spec (toast_clock p) t) as [_|]; [|lia].
  by destruct (Z.leb_spec due t) as [_|]; [|lia].
Qed.



(** *** request *)

(** X26. The options [request] hands to [fetch]: every property the
    caller gives wins over the default of the same name, as a whole, so
    that a caller who gives [headers] sends those headers and not the
    default [Content-Type]; a caller who gives no [method] or no [headers]
    gets [GET] and the JSON content type; a body that is an array or an
    object is sent as its JSON text, any other body as it is; and no other
    property is added. *)
Theorem request_options_merge options :
  (forall k v,
     options !! k = Some v -> k <> lit "body" ->
     request_options (Some options) !! k = Some (Plain v)) /\
  (forall k,
     options !! k = None -> k <> lit "body" ->
     request_options (Some options) !! k = Plain <$> defaultOptions !! k) /\
  request_options (Some options) !! lit "body"
  = (fun b => match b with
              | Admin.JArr _ | Admin.JObj _ => Serialized b
              | _ => Plain b
              end) <$> options !! lit "body" /\
  request_options None = Plain <$> defaultOptions.
Proof.
  assert (Hbody : defaultOptions !! lit "body" = None) by by vm_compute.
  assert (Hmerged : forall k,
            (options ∪ defaultOptions) !! k
            = match options !! k with
              | Some v => Some v
              | None => defaultOptions !! k
              end).
  { intros k. rewrite lookup_union.
    by destruct (options !! k), (defaultOptions !! k). }
  assert (Hother : forall k, k <> lit "body" ->
            request_options (Some options) !! k
            = Plain <$> (options ∪ defaultOptions) !! k).
  { intros k Hk. unfold request_options.
    change (default ∅ (Some options)) with options.
    destruct ((options ∪ defaultOptions) !! lit "body") as [b|];
      [destruct (Admin.truthy (Some b) && typeof_object b)|];
      rewrite ?lookup_insert_ne by (intros E; by apply Hk);
      by rewrite lookup_fmap. }
  split_and!.
  - intros k v Hv Hk. by rewrite (Hother k Hk), Hmerged, Hv.
  - intros k Hnone Hk. by rewrite (Hother k Hk), Hmerged, Hnone.
  - unfold request_options. change (default ∅ (Some options)) with options.
    rewrite Hmerged, Hbody.
    destruct (options !! lit "body") as [b|] eqn:Hb; cbn [fmap option_fmap option_map].
    + destruct b as [|[]|z|s|l|l]; cbn [Admin.truthy typeof_object andb negb];
        rewrite ?andb_false_r; cbv beta iota;
        by rewrite ?lookup_insert_eq, ?lookup_fmap, ?Hmerged, ?Hb.
    + by rewrite lookup_fmap, Hmerged, Hb, Hbody.
  - unfold request_options.
    change (default ∅ None) with (∅ : gmap jstring Admin.Json).
    rewrite (left_id_L ∅ (∪)). by rewrite Hbody.
Qed.


(** *** The guard against the double-tap zoom *)

(** X28. The listener prevents a [touchend] exactly when it comes 300 ms
    or less after the [touchend] before it, prevented or not (the first
    one is compared with the time 0): the verdicts on a series of touches
    are as many as the touches, and each depends on the touch and on the
    one before only. *)
Theorem double_tap_guard last nows :
  length (touchends last nows) = length nows /\
  (forall now,
     nows !! 0%nat = Some now ->
     touchends last nows !! 0%nat = Some (bool_decide (now - last <= 300))) /\
  (forall i prev now,
     nows !! i = Some prev -> nows !! S i = Some now ->
     touchends last nows !! S i = Some (bool_decide (now - prev <= 300))).
Proof.
  revert last. induction nows as [|n nows IH]; intros last; [done|].
  destruct (IH n) as (Hlen & Hfirst & Hnext).
  cbn [touchends touchend length]. split_and!.
  - by rewrite Hlen.
  - by intros now [= ->].
  - intros i prev now Hprev Hnow. cbn [lookup list_lookup] in Hnow |- *.
    destruct i as [|i].
    + injection Hprev as ->. by apply Hfirst.
    + cbn [lookup list_lookup] in Hprev. by apply (Hnext i prev now).
Qed.

(** *** getCurrentLocation *)


(** *** showReasonTooltip *)

Lemma tip_inv_step p e p' :
  tip_inv p -> tip_step p e = Some p' -> tip_inv p'.
Proof.
  intros (Hcreated & Hshown) Hstep. unfold tip_inv.
  destruct e as [t btn reason|t id|t]; cbn [tip_step] in Hstep.
  - destruct (tip_clock p <=? t); [|done]. injection Hstep as <-.
    unfold showReasonTooltip, setTimeout.
    cbn [tooltip created hide_listeners tip_timers pending].
    split.
    + destruct (tooltip p); [by rewrite Hcreated|by rewrite Hcreated].
    + intros el _ _. right. exists (next_id (tip_timers p)).
      by rewrite lookup_insert_eq.
  - destruct (pending (tip_timers p) !! id) as [[due u]|]; [|done].
    destruct ((tip_clock p <=? t) && (due <=? t)); [|done].
    injection Hstep as <-. cbn [tooltip created hide_listeners tip_timers].
    split; [done|]. intros el _ _. left. lia.
  - destruct (tip_clock p <=? t); [|done]. injection Hstep as <-.
    destruct (hide_listeners p) as [|n] eqn:Hn;
      cbn [tooltip created hide_listeners tip_timers].
    + split; [done|]. intros el Hel Hd.
      destruct (Hshown el Hel Hd) as [Hl|Hp]; [lia|by right].
    + split; [by destruct (tooltip p)|]. intros el Hel Hd.
      destruct (tooltip p); [|done]. injection Hel as <-. done.
Qed.

(** X30. [showReasonTooltip] makes the tooltip element once and uses it
    again afterwards: in every run from a document without it, the
    function has created one element if the document has the tooltip and
    none otherwise.  And a tooltip on screen can always be dismissed: a
    [hide] listener is on the document, or a timer is pending that will
    put one there. *)
Theorem tooltip_is_made_once evs p :
  run tip_step no_tooltip evs = Some p ->
  created p = match tooltip p with Some _ => 1%nat | None => 0%nat end /\
  (forall el,
     tooltip p = Some el -> displayed el = true ->
     (0 < hide_listeners p)%nat \/
     exists id, is_Some (pending (tip_timers p) !! id)).
Proof.
  apply (TimersFacts.run_invariant tip_step tip_inv).
  - apply tip_inv_step.
  - split; [done|]. intros el Hel. done.
Qed.

Lemma tooltip_is_made_once_witness :
  exists p,
    run tip_step no_tooltip two_tips = Some p /\
    created p = 1%nat /\
    tip_text <$> tooltip p = Some (lit "late").
Proof.
  eexists. split; [reflexivity|]. split; [|reflexivity].
  destruct (tooltip_is_made_once two_tips _ eq_refl) as [-> _]. reflexivity.
Defined.

End PageFacts.

(** ** The days of a borrow: [parseInt] on what the form holds *)

Module DaysMore.
Import Admin More.

(** The digits of a numeral, read from the left with an accumulator. *)
Lemma leading_digits_acc u acc :
  leading_digits 10 (Some (Z.pos acc)) (uint_units u)
  = Some (Z.pos (Pos.of_uint_acc u acc)).
Proof.
  revert acc.
  induction u as [|u IH|u IH|u IH|u IH|u IH|u IH|u IH|u IH|u IH|u IH];
    intros acc; cbn [uint_units leading_digits Pos.of_uint_acc]; [done|..];
    match goal with
    | |- context [digit_of 10 ?c] =>
        let v := eval vm_compute in (digit_of 10 c) in
        change (digit_of 10 c) with v
    end;
    cbv beta iota; cbn [from_option]; unfold Datatypes.id;
    rewrite <- IH; do 2 f_equal; lia.
Qed.

Lemma leading_digits_from_zero u :
  leading_digits 10 (Some 0) (uint_units u) = Some (Z.of_N (Pos.of_uint u)).
Proof.
  induction u as [|u IH|u IH|u IH|u IH|u IH|u IH|u IH|u IH|u IH|u IH];
    cbn [uint_units leading_digits Pos.of_uint]; [done|..];
    match goal with
    | |- context [digit_of 10 ?c] =>
        let v := eval vm_compute in (digit_of 10 c) in
        change (digit_of 10 c) with v
    end;
    cbv beta iota; cbn [from_option]; unfold Datatypes.id;
    [exact IH|..]; cbn [Z.of_N]; rewrite <- leading_digits_acc; done.
Qed.

Lemma leading_digits_start u :
  u <> Decimal.Nil ->
  leading_digits 10 None (uint_units u) = leading_digits 10 (Some 0) (uint_units u).
Proof. by destruct u. Qed.

(** [parseInt] on a numeral reads its digits: no white space, no sign and
    no [0x] in front of them. *)
Lemma parseInt_numeral u :
  u <> Decimal.Nil ->
  parseInt (uint_units u) = leading_digits 10 None (uint_units u).
Proof.
  destruct u as [|l|l|l|l|l|l|l|l|l|l]; [done|destruct l|..]; intros _;
    cbn [uint_units]; lazy -[leading_digits uint_units];
    by match goal with |- context [leading_digits ?r ?a ?s] =>
         destruct (leading_digits r a s)
       end.
Qed.

Lemma parseInt_negative u :
  u <> Decimal.Nil ->
  parseInt (45%N :: uint_units u) = Z.opp <$> leading_digits 10 None (uint_units u).
Proof.
  destruct u as [|l|l|l|l|l|l|l|l|l|l]; [done|destruct l|..]; intros _;
    cbn [uint_units]; lazy -[leading_digits uint_units];
    by match goal with |- context [leading_digits ?r ?a ?s] =>
         destruct (leading_digits r a s)
       end.
Qed.

(** [parseInt(String(n))] is [n]. *)
Lemma parseInt_String n : parseInt (String_of_Z n) = Some n.
Proof.
  destruct n as [|p|p]; [done|..]; unfold String_of_Z, Z.to_int.
  - rewrite parseInt_numeral, leading_digits_start, leading_digits_from_zero
      by apply DecimalPos.Unsigned.to_uint_nonnil.
    by rewrite DecimalPos.Unsigned.of_to.
  - rewrite parseInt_negative, leading_digits_start, leading_digits_from_zero
      by apply DecimalPos.Unsigned.to_uint_nonnil.
    by rewrite DecimalPos.Unsigned.of_to.
Qed.



End DaysMore.
